(** * tipg.database: connection initialisation and pool lifecycle

    A shallow embedding of [src/tipg/database.py]:
    - [connection_factory] with its [__init__] and its [__call__]
      (named [initialize] in the specification),
    - [connect_to_db] and [close_db_connection].

    Python coroutines are sequential code between [await]s, so every
    function is a state transformer that may raise: a small state and
    exception monad.  What the database driver and the server do is not
    part of the file under study; it is a parameter of the model. *)

From Stdlib Require Import ZArith Ascii String.
From stdpp Require Import base option list strings gmap.

Local Open Scope string_scope.
Local Open Scope list_scope.

(** ** Exceptions and results *)

(** The exceptions the code can meet.  [DriverError] stands for whatever
    the driver raises (server errors, network errors); the payload tells
    two of them apart. *)
Inductive exn : Type :=
  | DriverError (code : nat)
  | FileNotFoundError (path : string)
  | AttributeError (attr : string)
  | TypeError (keyword : string).

Inductive result (A : Type) : Type :=
  | Return (a : A)
  | Raise (e : exn).
Arguments Return {A} a.
Arguments Raise {A} e.

(** State and exception monad: an exception keeps the state reached so
    far, the way side effects made before a Python [raise] stay made. *)
Definition M (W A : Type) : Type := W -> result A * W.

Definition ret {W A} (a : A) : M W A := fun w => (Return a, w).

Definition bind {W A B} (m : M W A) (k : A -> M W B) : M W B :=
  fun w =>
    match m w with
    | (Return a, w') => k a w'
    | (Raise e, w') => (Raise e, w')
    end.

Definition raise {W A} (e : exn) : M W A := fun w => (Raise e, w).

Declare Scope py_scope.
Delimit Scope py_scope with py.
Notation "x <- m ;; k" := (bind m (fun x => k))
  (at level 100, m at next level, right associativity) : py_scope.
Notation "m ;; k" := (bind m (fun _ => k))
  (at level 100, right associativity) : py_scope.

(** [for x in l: body x] *)
Fixpoint for_each {W A} (l : list A) (body : A -> M W unit) : M W unit :=
  match l with
  | [] => ret tt
  | x :: rest => bind (body x) (fun _ => for_each rest body)
  end.

(** ** connection_factory *)

Record connection_factory : Type := mk_connection_factory {
  schemas : list string;
  user_sql_files : list string
}.

(** [x or []] on an [Optional[List]] argument. *)
Definition or_empty {A} (o : option (list A)) : list A :=
  match o with
  | Some (x :: l) => x :: l
  | Some [] => []
  | None => []
  end.

(** [connection_factory.__init__(self, schemas, user_sql_files)] *)
Definition __init__
    (schemas_arg : option (list string))
    (user_sql_files_arg : option (list string)) : connection_factory :=
  {| schemas := or_empty schemas_arg;
     user_sql_files := or_empty user_sql_files_arg |}.

(** [DB_CATALOG_FILE]: the bundled resource [sql/dbcatalog.sql] of the
    package. *)
Definition DB_CATALOG_FILE : string := "tipg/sql/dbcatalog.sql".

(** The two functions of [orjson] handed to the driver. *)
Inductive codec_fn : Type := orjson_dumps | orjson_loads.

(** What the code asks of an [asyncpg.Connection]. *)
Inductive conn_op : Type :=
  | SetTypeCodec (typename : string) (encoder decoder : codec_fn)
                 (schema : string)
  | Execute (sql : string).

Global Instance codec_fn_eq_dec : EqDecision codec_fn.
Proof. solve_decision. Defined.
Global Instance conn_op_eq_dec : EqDecision conn_op.
Proof. solve_decision. Defined.
Global Instance exn_eq_dec : EqDecision exn.
Proof. solve_decision. Defined.

(** [",".join(l)] *)
Definition join (sep : string) (l : list string) : string :=
  String.concat sep l.

(** The f-string passed to [conn.execute] for the search path, with the
    line breaks and the indentation of the source. *)
Definition search_path_sql_head : string :=
"
            SELECT set_config(
                'search_path',
                '".

Definition search_path_sql_rest : string :=
" || current_setting('search_path', false),
                false
                );
            ".

Definition search_path_sql_tail : string := ",'" +:+ search_path_sql_rest.

Definition search_path_sql (schemas : string) : string :=
  search_path_sql_head +:+ schemas +:+ search_path_sql_tail.

Definition debug_message (schemas : string) : string :=
  "Looking for Tables and Functions in " +:+ schemas +:+ " schemas".

Section Initialize.

(** The server side of one connection: [session] is whatever state the
    session holds (settings, codecs, temporary objects) and [server]
    is its reaction to one operation: the exception the driver raises,
    if any, and the session state afterwards. *)
Context {session : Type}.
Variable server : conn_op -> session -> option exn * session.

(** The state [__call__] runs in: the factory object [self], the
    connection (its session and the operations it was asked to
    perform, oldest first), the files that can be read, the log. *)
Record istate : Type := mk_istate {
  self : connection_factory;
  conn_session : session;
  conn_trace : list conn_op;
  files : gmap string string;
  log : list string
}.

(** One awaited call on the connection.  The operation is recorded
    whether it succeeds or not. *)
Definition conn_call (op : conn_op) : M istate unit :=
  fun st =>
    let st' := {| self := self st;
                  conn_session := snd (server op (conn_session st));
                  conn_trace := conn_trace st ++ [op];
                  files := files st; log := log st |} in
    match fst (server op (conn_session st)) with
    | None => (Return tt, st')
    | Some e => (Raise e, st')
    end.

Definition set_type_codec (typename : string) (encoder decoder : codec_fn)
    (schema : string) : M istate unit :=
  conn_call (SetTypeCodec typename encoder decoder schema).

Definition execute (sql : string) : M istate unit :=
  conn_call (Execute sql).

(** [path.read_text()] *)
Definition read_text (path : string) : M istate string :=
  fun st =>
    match files st !! path with
    | Some text => (Return text, st)
    | None => (Raise (FileNotFoundError path), st)
    end.

(** [logger.debug(msg)] *)
Definition logger_debug (msg : string) : M istate unit :=
  fun st =>
    (Return tt,
     {| self := self st; conn_session := conn_session st;
        conn_trace := conn_trace st; files := files st;
        log := log st ++ [msg] |}).

(** [self.schemas], [self.user_sql_files] *)
Definition get_self : M istate connection_factory :=
  fun st => (Return (self st), st).

Local Open Scope py_scope.

(** The four parts of [connection_factory.__call__], in source order. *)
Definition register_codecs : M istate unit :=
  set_type_codec "json" orjson_dumps orjson_loads "pg_catalog" ;;
  set_type_codec "jsonb" orjson_dumps orjson_loads "pg_catalog".

Definition set_search_path : M istate unit :=
  this <- get_self ;;
  let schemas := join "," ("pg_temp" :: schemas this) in
  logger_debug (debug_message schemas) ;;
  execute (search_path_sql schemas).

Definition register_user_sql : M istate unit :=
  this <- get_self ;;
  for_each (user_sql_files this)
    (fun sqlfile => text <- read_text sqlfile ;; execute text).

Definition register_catalog : M istate unit :=
  text <- read_text DB_CATALOG_FILE ;; execute text.

(** [connection_factory.__call__(self, conn)] *)
Definition __call__ : M istate unit :=
  register_codecs ;;
  set_search_path ;;
  register_user_sql ;;
  register_catalog.

(** *** The script view

    What [initialize] does is fixed by the factory and by the files:
    a list of steps run in order until one raises. *)

Inductive step : Type :=
  | Call (op : conn_op)
  | Log (msg : string)
  | Fail (e : exn).

Definition run_step (s : step) : M istate unit :=
  match s with
  | Call op => conn_call op
  | Log msg => logger_debug msg
  | Fail e => raise e
  end.

Definition run_script (steps : list step) : M istate unit :=
  for_each steps run_step.

Definition json_codec : conn_op :=
  SetTypeCodec "json" orjson_dumps orjson_loads "pg_catalog".
Definition jsonb_codec : conn_op :=
  SetTypeCodec "jsonb" orjson_dumps orjson_loads "pg_catalog".

Definition search_path_op (this : connection_factory) : conn_op :=
  Execute (search_path_sql (join "," ("pg_temp" :: schemas this))).

Definition file_step (fs : gmap string string) (path : string) : step :=
  match fs !! path with
  | Some text => Call (Execute text)
  | None => Fail (FileNotFoundError path)
  end.

Definition script (this : connection_factory) (fs : gmap string string)
    : list step :=
  [Call json_codec; Call jsonb_codec;
   Log (debug_message (join "," ("pg_temp" :: schemas this)));
   Call (search_path_op this)]
  ++ map (file_step fs) (user_sql_files this)
  ++ [file_step fs DB_CATALOG_FILE].

(** The operations of a list of steps that reach the connection. *)
Definition calls_of (steps : list step) : list conn_op :=
  omap (fun s => match s with Call op => Some op | _ => None end) steps.

End Initialize.

Arguments istate : clear implicits.
Arguments mk_istate {session}.

(** [initialize] is the name the specification gives to [__call__]. *)
Abbreviation initialize := __call__.


(** The session a server is in after a list of operations, and what it
    is for the server to accept them all, one after the other. *)
Fixpoint session_after {session}
    (server : conn_op -> session -> option exn * session)
    (ops : list conn_op) (s : session) : session :=
  match ops with
  | [] => s
  | op :: ops => session_after server ops (snd (server op s))
  end.

Fixpoint accepts {session}
    (server : conn_op -> session -> option exn * session)
    (ops : list conn_op) (s : session) : Prop :=
  match ops with
  | [] => True
  | op :: ops =>
      fst (server op s) = None /\ accepts server ops (snd (server op s))
  end.

(** ** Pools: connect_to_db and close_db_connection *)

(** The fields of [tipg.settings.PostgresSettings] that the code reads.
    The sizes are only handed on to the driver. *)
Record PostgresSettings : Type := mk_PostgresSettings {
  database_url : string;
  db_min_conn_size : Z;
  db_max_conn_size : Z;
  db_max_queries : Z;
  db_max_inactive_conn_lifetime : Z
}.

Record MultiPostgresSettings : Type := mk_MultiPostgresSettings {
  database_url_list : list string
}.

(** Values stored as attributes of [app.state] or passed in [**kwargs]:
    a pool (by handle), a list of pools, anything else. *)
Inductive pyval : Type :=
  | VPool (h : nat)
  | VPoolList (hs : list nat)
  | VOther (tag : nat).

(** The arguments of one call of [asyncpg.create_pool_b]. *)
Record pool_request : Type := mk_pool_request {
  req_dsn : string;
  req_min_size : Z;
  req_max_size : Z;
  req_max_queries : Z;
  req_max_inactive_connection_lifetime : Z;
  req_init : nat;
  req_kwargs : gmap string pyval
}.

Record pool : Type := mk_pool {
  pool_args : pool_request;
  pool_closed : bool
}.

Inductive pool_call : Type :=
  | CreatePool (req : pool_request)
  | ClosePool (h : nat).

(** The process: the factory objects and the pools allocated so far (an
    object is named by its index), the attributes of [app.state], the
    settings [PostgresSettings()] reads from the environment, and the
    calls made to the pooling primitive, oldest first. *)
Record world : Type := mk_world {
  factories : list connection_factory;
  pools : list pool;
  app_state : gmap string pyval;
  env_settings : PostgresSettings;
  calls : list pool_call
}.

(** The keywords [connect_to_db] writes out in its calls of
    [create_pool_b]; one of them given again in [**kwargs] is a
    [TypeError] at the call. *)
Definition explicit_keywords : list string :=
  ["min_size"; "max_size"; "max_queries";
   "max_inactive_connection_lifetime"; "init"].

Definition repeated_keyword (kwargs : gmap string pyval) : option string :=
  snd <$> list_find (fun k => is_Some (kwargs !! k)) explicit_keywords.

Section Pools.

(** Whether the driver manages to build a pool: the exception it
    raises, if any, given the calls made before. *)
Variable network : list pool_call -> pool_request -> option exn.

(** [PostgresSettings()] *)
Definition default_settings : M world PostgresSettings :=
  fun w => (Return (env_settings w), w).

(** [connection_factory(schemas, user_sql_files)]: a new object. *)
Definition new_connection_factory
    (schemas_arg user_sql_files_arg : option (list string)) : M world nat :=
  fun w =>
    (Return (length (factories w)),
     {| factories :=
          factories w
          ++ [__init__ schemas_arg user_sql_files_arg];
        pools := pools w; app_state := app_state w;
        env_settings := env_settings w; calls := calls w |}).

(** [await asyncpg.create_pool_b(dsn, min_size=..., ..., init=...,
    **kwargs)]: the call is recorded; on success a new open pool is
    allocated and its handle returned. *)
Definition create_pool_b (req : pool_request) : M world nat :=
  fun w =>
    match repeated_keyword (req_kwargs req) with
    | Some k => (Raise (TypeError k), w)
    | None =>
        match network (calls w) req with
        | Some e =>
            (Raise e,
             {| factories := factories w; pools := pools w;
                app_state := app_state w; env_settings := env_settings w;
                calls := calls w ++ [CreatePool req] |})
        | None =>
            (Return (length (pools w)),
             {| factories := factories w;
                pools := pools w
                         ++ [{| pool_args := req; pool_closed := false |}];
                app_state := app_state w; env_settings := env_settings w;
                calls := calls w ++ [CreatePool req] |})
        end
    end.

(** [app.state.<name> = v] *)
Definition set_attr (name : string) (v : pyval) : M world unit :=
  fun w =>
    (Return tt,
     {| factories := factories w; pools := pools w;
        app_state := <[name := v]> (app_state w);
        env_settings := env_settings w; calls := calls w |}).

(** [app.state.<name>] *)
Definition get_attr (name : string) : M world pyval :=
  fun w =>
    match app_state w !! name with
    | Some v => (Return v, w)
    | None => (Raise (AttributeError name), w)
    end.

(** [await pool.close()] *)
Definition pool_close (h : nat) : M world unit :=
  fun w =>
    (Return tt,
     {| factories := factories w;
        pools := alter (fun p => {| pool_args := pool_args p;
                                    pool_closed := true |}) h (pools w);
        app_state := app_state w; env_settings := env_settings w;
        calls := calls w ++ [ClosePool h] |}).

Local Open Scope py_scope.

(** The request [connect_to_db] makes for one URL. *)
Definition request_for (settings : PostgresSettings) (con_init : nat)
    (kwargs : gmap string pyval) (dsn : string) : pool_request :=
  {| req_dsn := dsn;
     req_min_size := db_min_conn_size settings;
     req_max_size := db_max_conn_size settings;
     req_max_queries := db_max_queries settings;
     req_max_inactive_connection_lifetime :=
       db_max_inactive_conn_lifetime settings;
     req_init := con_init;
     req_kwargs := kwargs |}.

(** The loop over [database_url_list]; [pool_list] is the list built
    so far. *)
Fixpoint create_pool_list (urls : list string)
    (settings : PostgresSettings) (con_init : nat)
    (kwargs : gmap string pyval) (pool_list : list nat)
    : M world (list nat) :=
  match urls with
  | [] => ret pool_list
  | database_url :: rest =>
      pool <- create_pool_b
                (request_for settings con_init kwargs database_url) ;;
      create_pool_list rest settings con_init kwargs (pool_list ++ [pool])
  end.

(** [connect_to_db(app, settings, multi_postgres_settings, schemas,
    user_sql_files, **kwargs)] *)
Definition connect_to_db
    (settings : option PostgresSettings)
    (multi_postgres_settings : option MultiPostgresSettings)
    (schemas_arg user_sql_files_arg : option (list string))
    (kwargs : gmap string pyval) : M world unit :=
  settings <- match settings with
              | Some s => ret s
              | None => default_settings
              end ;;
  con_init <- new_connection_factory schemas_arg user_sql_files_arg ;;
  pool <- create_pool_b
            (request_for settings con_init kwargs (database_url settings)) ;;
  set_attr "pool" (VPool pool) ;;
  match multi_postgres_settings with
  | Some multi =>
      if bool_decide (0 < length (database_url_list multi)) then
        pool_list <- create_pool_list (database_url_list multi)
                       settings con_init kwargs [] ;;
        set_attr "pool_list" (VPoolList pool_list)
      else ret tt
  | None => ret tt
  end.

(** [close_db_connection(app)] *)
Definition close_db_connection : M world unit :=
  v <- get_attr "pool" ;;
  match v with
  | VPool h => pool_close h
  | _ => raise (AttributeError "close")
  end.

End Pools.

(** ** How PostgreSQL reads the search-path statement

    The statement is text, and what it means is decided by the server.
    Two facts about the server are needed to speak of the search path
    [initialize] leaves: where a quoted literal ends, and how the value
    of [search_path] is cut into schema names. *)

Definition quote_char : ascii := "'"%char.
Definition comma_char : ascii := ","%char.

Definition prepend (a : ascii) (p : string * string) : string * string :=
  (String a (fst p), snd p).

(** The text after an opening quote: the value of the literal (a doubled
    quote stands for one quote) and what follows its closing quote. *)
Fixpoint scan_literal (s : string) : option (string * string) :=
  match s with
  | EmptyString => None
  | String a rest =>
      if Ascii.eqb a quote_char then
        match rest with
        | String b rest' =>
            if Ascii.eqb b quote_char
            then prepend quote_char <$> scan_literal rest'
            else Some (EmptyString, rest)
        | EmptyString => Some (EmptyString, EmptyString)
        end
      else prepend a <$> scan_literal rest
  end.

(** The names of a search path: its value cut at the commas. *)
Fixpoint split_on (c : ascii) (s : string) : list string :=
  match s with
  | EmptyString => [EmptyString]
  | String a rest =>
      if Ascii.eqb a c then EmptyString :: split_on c rest
      else match split_on c rest with
           | name :: names => String a name :: names
           | [] => [String a EmptyString]
           end
  end.

Definition path_elems (search_path : string) : list string :=
  split_on comma_char search_path.

Fixpoint has_char (c : ascii) (s : string) : bool :=
  match s with
  | EmptyString => false
  | String a rest => Ascii.eqb a c || has_char c rest
  end.





Fixpoint strip_prefix (p s : string) : option string :=
  match p, s with
  | EmptyString, _ => Some s
  | String a p', String b s' =>
      if Ascii.eqb a b then strip_prefix p' s' else None
  | String _ _, EmptyString => None
  end.

(** *** Reading a [set_config] statement

    The words, literals and signs of a statement, then the call
    [SELECT set_config('name', value, is_local)] they spell, with a
    value built from literals, [current_setting('name', missing_ok)]
    and [||]. *)

Inductive token : Type :=
  | TWord (w : string)
  | TString (value : string)
  | TLParen
  | TRParen
  | TComma
  | TSemicolon
  | TConcat
  | TOther (c : ascii).

Inductive lex_state : Type :=
  | Idle
  | InWord (w : string)
  | InString (value : string)
  | AfterQuote (value : string)
  | AfterBar.

Definition is_space (c : ascii) : bool :=
  Ascii.eqb c " " || Ascii.eqb c "010" || Ascii.eqb c "009"
  || Ascii.eqb c "013".

Definition is_word_char (c : ascii) : bool :=
  let n := nat_of_ascii c in
  (Nat.leb 48 n && Nat.leb n 57) || (Nat.leb 65 n && Nat.leb n 90)
  || (Nat.leb 97 n && Nat.leb n 122) || Nat.eqb n 95.

Definition snoc (s : string) (c : ascii) : string :=
  s +:+ String c EmptyString.

(** A character met between two tokens. *)
Definition start (c : ascii) : list token * lex_state :=
  if is_space c then ([], Idle)
  else if Ascii.eqb c quote_char then ([], InString EmptyString)
  else if Ascii.eqb c "(" then ([TLParen], Idle)
  else if Ascii.eqb c ")" then ([TRParen], Idle)
  else if Ascii.eqb c "," then ([TComma], Idle)
  else if Ascii.eqb c ";" then ([TSemicolon], Idle)
  else if Ascii.eqb c "|" then ([], AfterBar)
  else if is_word_char c then ([], InWord (String c EmptyString))
  else ([TOther c], Idle).

Definition after (t : token) (c : ascii) : list token * lex_state :=
  (t :: fst (start c), snd (start c)).

(** One character: the tokens it completes and the state it leaves.  A
    quote inside a literal ends it unless another quote follows. *)
Definition lex_step (st : lex_state) (c : ascii) : list token * lex_state :=
  match st with
  | Idle => start c
  | InWord w =>
      if is_word_char c then ([], InWord (snoc w c)) else after (TWord w) c
  | InString v =>
      if Ascii.eqb c quote_char then ([], AfterQuote v)
      else ([], InString (snoc v c))
  | AfterQuote v =>
      if Ascii.eqb c quote_char then ([], InString (snoc v quote_char))
      else after (TString v) c
  | AfterBar =>
      if Ascii.eqb c "|" then ([TConcat], Idle) else after (TOther "|") c
  end.

Fixpoint lex (st : lex_state) (out : list token) (s : string)
    : option (list token) :=
  match s with
  | EmptyString =>
      match st with
      | Idle => Some out
      | InWord w => Some (out ++ [TWord w])
      | InString _ => None
      | AfterQuote v => Some (out ++ [TString v])
      | AfterBar => Some (out ++ [TOther "|"])
      end
  | String c rest =>
      lex (snd (lex_step st c)) (out ++ fst (lex_step st c)) rest
  end.

Definition tokenize (sql : string) : option (list token) := lex Idle [] sql.

Inductive sql_expr : Type :=
  | ELit (value : string)
  | ECurrentSetting (name : string)
  | EConcat (e1 e2 : sql_expr).

Definition parse_bool (w : string) : option bool :=
  if String.eqb w "false" || String.eqb w "FALSE" then Some false
  else if String.eqb w "true" || String.eqb w "TRUE" then Some true
  else None.

Definition is_current_setting (w : string) (missing_ok : string) : bool :=
  String.eqb w "current_setting" && bool_decide (is_Some (parse_bool missing_ok)).

(** [|| term || term ...] after a first term. *)
Fixpoint parse_concat (acc : sql_expr) (ts : list token)
    : option (sql_expr * list token) :=
  match ts with
  | TConcat :: TString v :: rest => parse_concat (EConcat acc (ELit v)) rest
  | TConcat :: TWord w :: TLParen :: TString name :: TRParen :: rest =>
      if is_current_setting w "false"
      then parse_concat (EConcat acc (ECurrentSetting name)) rest
      else None
  | TConcat :: TWord w :: TLParen :: TString name :: TComma :: TWord b
    :: TRParen :: rest =>
      if is_current_setting w b
      then parse_concat (EConcat acc (ECurrentSetting name)) rest
      else None
  | TConcat :: _ => None
  | _ => Some (acc, ts)
  end.

Definition parse_expr (ts : list token) : option (sql_expr * list token) :=
  match ts with
  | TString v :: rest => parse_concat (ELit v) rest
  | TWord w :: TLParen :: TString name :: TRParen :: rest =>
      if is_current_setting w "false"
      then parse_concat (ECurrentSetting name) rest
      else None
  | TWord w :: TLParen :: TString name :: TComma :: TWord b :: TRParen
    :: rest =>
      if is_current_setting w b
      then parse_concat (ECurrentSetting name) rest
      else None
  | _ => None
  end.

Record set_config_call : Type := mk_set_config_call {
  sc_name : string;
  sc_value : sql_expr;
  sc_is_local : bool
}.

Definition parse_set_config (ts : list token) : option set_config_call :=
  match ts with
  | TWord sel :: TWord fn :: TLParen :: TString name :: TComma :: rest =>
      if (String.eqb sel "SELECT" || String.eqb sel "select")
         && String.eqb fn "set_config"
      then
        match parse_expr rest with
        | Some (value, TComma :: TWord b :: TRParen :: tail) =>
            match parse_bool b, tail with
            | Some is_local, [] | Some is_local, [TSemicolon] =>
                Some {| sc_name := name; sc_value := value;
                        sc_is_local := is_local |}
            | _, _ => None
            end
        | _ => None
        end
      else None
  | _ => None
  end.

Definition read_set_config (sql : string) : option set_config_call :=
  tokenize sql ≫= parse_set_config.

(** The value of an expression, given the settings of the session. *)
Fixpoint eval_expr (setting : string -> string) (e : sql_expr) : string :=
  match e with
  | ELit value => value
  | ECurrentSetting name => setting name
  | EConcat e1 e2 => eval_expr setting e1 +:+ eval_expr setting e2
  end.

(** A small server, enough to run [initialize] on examples: it keeps the
    search path, the codecs and the scripts it ran.  A statement that
    reads as a call of [set_config] on [search_path] sets the search
    path to the value of its expression; a statement with a literal
    left open is refused as a syntax error; a script that divides by
    zero fails; any other script is recorded.  A refused operation
    leaves the session as it was. *)
Record pg_session : Type := mk_pg_session {
  pg_search_path : string;
  pg_codecs : list (string * string * codec_fn * codec_fn);
  pg_scripts : list string
}.

Definition syntax_error : exn := DriverError 1.
Definition division_by_zero : exn := DriverError 2.

(** The settings of a session of the small server: it knows the search
    path only. *)
Definition pg_setting (s : pg_session) (name : string) : string :=
  if String.eqb name "search_path" then pg_search_path s else EmptyString.

Definition pg_server (op : conn_op) (s : pg_session)
    : option exn * pg_session :=
  match op with
  | SetTypeCodec typename encoder decoder schema =>
      (None,
       {| pg_search_path := pg_search_path s;
          pg_codecs := pg_codecs s ++ [(schema, typename, encoder, decoder)];
          pg_scripts := pg_scripts s |})
  | Execute sql =>
      match tokenize sql with
      | None => (Some syntax_error, s)
      | Some tokens =>
          match parse_set_config tokens with
          | Some call =>
              if String.eqb (sc_name call) "search_path"
                 && negb (sc_is_local call)
              then (None,
                    {| pg_search_path :=
                         eval_expr (pg_setting s) (sc_value call);
                       pg_codecs := pg_codecs s;
                       pg_scripts := pg_scripts s |})
              else (None, s)
          | None =>
              if String.prefix "SELECT 1/0" sql
              then (Some division_by_zero, s)
              else (None,
                    {| pg_search_path := pg_search_path s;
                       pg_codecs := pg_codecs s;
                       pg_scripts := pg_scripts s ++ [sql] |})
          end
      end
  end.

(** A fresh session of that server and a state to run [initialize] in. *)
(** Two sessions of the small server with the same search path and the
    same codecs. *)
Definition same_path_and_codecs (s1 s2 : pg_session) : Prop :=
  pg_search_path s1 = pg_search_path s2 /\ pg_codecs s1 = pg_codecs s2.

Definition pg_fresh (search_path : string) : pg_session :=
  {| pg_search_path := search_path; pg_codecs := []; pg_scripts := [] |}.

Definition demo_files : gmap string string :=
  <[DB_CATALOG_FILE := "CREATE FUNCTION pg_temp.tipg_catalog() ..."]>
  (<["funcs.sql" := "CREATE FUNCTION pg_temp.squares() ..."]>
  (<["broken.sql" := "SELECT 1/0;"]> ∅)).

Definition demo_state (schemas_arg user_sql_files_arg : list string)
    (search_path : string) : istate pg_session :=
  {| self := __init__ (Some schemas_arg)
                                     (Some user_sql_files_arg);
     conn_session := pg_fresh search_path;
     conn_trace := [];
     files := demo_files;
     log := [] |}.

(** An operation that runs a statement. *)
Definition is_execute (op : conn_op) : Prop :=
  match op with
  | Execute _ => True
  | SetTypeCodec _ _ _ _ => False
  end.

(** The pool the driver hands out for a request, and the same pool once
    closed. *)
Definition open_pool (req : pool_request) : pool :=
  {| pool_args := req; pool_closed := false |}.

Definition closed_pool (p : pool) : pool :=
  {| pool_args := pool_args p; pool_closed := true |}.

(** The URLs of the multi-database settings for which [connect_to_db]
    builds a pool. *)
Definition secondary_urls (multi : option MultiPostgresSettings)
    : list string :=
  match multi with
  | Some m => database_url_list m
  | None => []
  end.

(** The settings [connect_to_db] works with: those it is given, or
    those of the environment. *)
Definition effective_settings (settings : option PostgresSettings)
    (w : world) : PostgresSettings :=
  match settings with
  | Some s => s
  | None => env_settings w
  end.

(** A network on which one host cannot be reached, and a process that
    has opened nothing yet. *)
Definition unreachable : exn := DriverError 3.

Definition demo_network (history : list pool_call) (req : pool_request)
    : option exn :=
  if String.eqb (req_dsn req) "postgresql://down/db" then Some unreachable
  else None.

Definition demo_settings : PostgresSettings :=
  {| database_url := "postgresql://primary/db";
     db_min_conn_size := 1;
     db_max_conn_size := 10;
     db_max_queries := 50000;
     db_max_inactive_conn_lifetime := 300 |}.

Definition demo_world : world :=
  {| factories := []; pools := []; app_state := ∅;
     env_settings := demo_settings; calls := [] |}.

(** * Properties of [initialize] *)

Section MonadFacts.
Context {W : Type}.

Lemma bind_assoc {A B C} (m : M W A) (k : A -> M W B) (h : B -> M W C) w :
  bind (bind m k) h w = bind m (fun a => bind (k a) h) w.
Proof. unfold bind. destruct (m w) as [[a|e] w']; reflexivity. Qed.

Lemma bind_cong {A B} (m m' : M W A) (k k' : A -> M W B) w :
  m w = m' w ->
  (forall a w1, m' w = (Return a, w1) -> k a w1 = k' a w1) ->
  bind m k w = bind m' k' w.
Proof.
  intros Hm Hk. unfold bind. rewrite Hm.
  destruct (m' w) as [[a|e] w1]; [apply Hk|]; reflexivity.
Qed.

Lemma for_each_app {A} (l1 l2 : list A) (body : A -> M W unit) w :
  for_each (l1 ++ l2) body w
  = bind (for_each l1 body) (fun _ => for_each l2 body) w.
Proof.
  revert w. induction l1 as [|x l1 IH]; intros w; simpl.
  - reflexivity.
  - rewrite bind_assoc. unfold bind at 1 2.
    destruct (body x w) as [[[]|e] w1]; [apply IH | reflexivity].
Qed.

Lemma for_each_ext {A} (l : list A) (f g : A -> M W unit) (P : W -> Prop) w :
  (forall x w0, P w0 -> f x w0 = g x w0) ->
  (forall x w0 r w1, P w0 -> g x w0 = (r, w1) -> P w1) ->
  P w ->
  for_each l f w = for_each l g w.
Proof.
  intros Hfg Hinv. revert w.
  induction l as [|x l IH]; intros w Hw; simpl; [reflexivity|].
  unfold bind. rewrite (Hfg x w Hw).
  destruct (g x w) as [[[]|e] w1] eqn:E; [|reflexivity].
  apply IH. eapply Hinv; eauto.
Qed.
End MonadFacts.

Section InitializeFacts.
Context {session : Type}.
Variable server : conn_op -> session -> option exn * session.


(** No step touches the factory or the files. *)
Lemma run_step_frame (s : step) (st st' : istate session) r :
  run_step server s st = (r, st') ->
  self st' = self st /\ files st' = files st.
Proof.
  destruct s as [op|msg|e]; simpl.
  - unfold conn_call. destruct (fst (server op (conn_session st)));
      intros [= <- <-]; auto.
  - unfold logger_debug. intros [= <- <-]; auto.
  - unfold raise. intros [= <- <-]; auto.
Qed.

Lemma run_script_frame (steps : list step) (st st' : istate session) r :
  run_script server steps st = (r, st') ->
  self st' = self st /\ files st' = files st.
Proof.
  unfold run_script. revert st.
  induction steps as [|s steps IH]; intros st; simpl.
  - unfold ret. intros [= <- <-]; auto.
  - unfold bind. destruct (run_step server s st) as [[[]|e] st1] eqn:E.
    + intros H. apply IH in H as [-> ->]. eapply run_step_frame; eauto.
    + intros [= <- <-]. eapply run_step_frame; eauto.
Qed.

Lemma read_then_execute (path : string) (st : istate session) :
  bind (read_text path) (fun text => execute server text) st
  = run_step server (file_step (files st) path) st.
Proof.
  unfold bind, read_text, file_step.
  destruct (files st !! path); reflexivity.
Qed.

Lemma user_loop_script (paths : list string) (st : istate session) :
  for_each paths
    (fun sqlfile => bind (read_text sqlfile)
                         (fun text => execute server text)) st
  = run_script server (map (file_step (files st)) paths) st.
Proof.
  unfold run_script.
  transitivity
    (for_each paths (fun p => run_step server (file_step (files st) p)) st).
  - apply for_each_ext with (P := fun st0 => files st0 = files st).
    + intros p st0 H0. rewrite read_then_execute, H0. reflexivity.
    + intros p st0 r st1 H0 H. apply run_step_frame in H as [_ H].
      congruence.
    + reflexivity.
  - generalize (file_step (files st)). intros f. revert st.
    induction paths as [|p paths IH]; intros st; simpl; [reflexivity|].
    unfold bind. destruct (run_step server (f p) st) as [[[]|e] st1];
      [apply IH | reflexivity].
Qed.

(** [initialize] runs its script. *)
Lemma initialize_script (st : istate session) :
  initialize server st
  = run_script server (script (self st) (files st)) st.
Proof.
  unfold initialize, register_codecs, set_search_path, register_user_sql,
    register_catalog, script, run_script.
  rewrite bind_assoc. cbn [for_each app].
  apply bind_cong; [reflexivity|]. intros [] st1 E1.
  apply (run_step_frame (Call _)) in E1 as [Hs1 Hf1].
  apply bind_cong; [reflexivity|]. intros [] st2 E2.
  apply (run_step_frame (Call _)) in E2 as [Hs2 Hf2].
  rewrite bind_assoc. unfold bind at 1, get_self at 1. cbn beta iota.
  rewrite bind_assoc.
  replace (self st2) with (self st) by congruence.
  apply bind_cong; [reflexivity|]. intros [] st3 E3.
  apply (run_step_frame (Log _)) in E3 as [Hs3 Hf3].
  apply bind_cong; [reflexivity|]. intros [] st4 E4.
  apply (run_step_frame (Call _)) in E4 as [Hs4 Hf4].
  rewrite for_each_app.
  assert (Hs : self st4 = self st) by congruence.
  assert (Hf : files st4 = files st) by congruence.
  apply bind_cong.
  - unfold bind, get_self. rewrite user_loop_script, Hs, Hf. reflexivity.
  - intros [] st5 E5. apply run_script_frame in E5 as [Hs5 Hf5].
    rewrite read_then_execute. simpl. unfold bind, ret.
    replace (files st5) with (files st) by congruence.
    destruct (run_step server _ st5) as [[[]|e] st6]; reflexivity.
Qed.

Lemma run_step_trace (s : step) (st st' : istate session) r :
  run_step server s st = (r, st') ->
  conn_trace st' = conn_trace st ++ calls_of [s].
Proof.
  destruct s as [op|msg|e]; simpl.
  - unfold conn_call. destruct (fst (server op (conn_session st)));
      intros [= <- <-]; reflexivity.
  - unfold logger_debug. intros [= <- <-]. simpl. by rewrite app_nil_r.
  - unfold raise. intros [= <- <-]. simpl. by rewrite app_nil_r.
Qed.

Lemma calls_of_app (l1 l2 : list step) :
  calls_of (l1 ++ l2) = calls_of l1 ++ calls_of l2.
Proof. apply omap_app. Qed.

(** A run that returns has run every step. *)
Lemma run_script_return (steps : list step) (st st' : istate session) :
  run_script server steps st = (Return tt, st') ->
  conn_trace st' = conn_trace st ++ calls_of steps
  /\ Forall (fun s => forall e, s <> Fail e) steps.
Proof.
  unfold run_script. revert st.
  induction steps as [|s steps IH]; intros st.
  - simpl. unfold ret. intros [= <-]. by rewrite app_nil_r.
  - change (s :: steps) with ([s] ++ steps) at 2.
    rewrite (calls_of_app [s] steps). cbn [for_each app]. unfold bind.
    destruct (run_step server s st) as [[[]|e] st1] eqn:E; [|discriminate].
    intros H. apply IH in H as [-> HF].
    rewrite (run_step_trace _ _ _ _ E), <- app_assoc.
    split; [reflexivity|]. constructor; [|exact HF].
    intros e ->. discriminate E.
Qed.

(** A run that raises stopped at the step that raised. *)
Lemma run_script_raise (steps : list step) (st st' : istate session) e :
  run_script server steps st = (Raise e, st') ->
  exists before failing after st_mid,
    steps = before ++ failing :: after
    /\ run_script server before st = (Return tt, st_mid)
    /\ run_step server failing st_mid = (Raise e, st').
Proof.
  unfold run_script. revert st.
  induction steps as [|s steps IH]; intros st; simpl.
  - unfold ret. discriminate.
  - unfold bind. destruct (run_step server s st) as [[[]|e1] st1] eqn:E.
    + intros H. apply IH in H as (before & failing & after & st_mid
                                  & -> & Hb & Hf).
      exists (s :: before), failing, after, st_mid.
      split; [reflexivity|]. split; [|exact Hf].
      simpl. unfold bind. rewrite E. exact Hb.
    + intros [= <- <-]. exists [], s, steps, st.
      split; [reflexivity|]. split; [reflexivity | exact E].
Qed.

(** A step raises either because its file is missing, before anything
    is sent, or because the server refuses its operation. *)
Lemma run_step_raise (s : step) (st st' : istate session) e :
  run_step server s st = (Raise e, st') ->
  (s = Fail e /\ st' = st)
  \/ exists op, s = Call op
                /\ server op (conn_session st) = (Some e, conn_session st').
Proof.
  destruct s as [op|msg|e1]; simpl.
  - unfold conn_call.
    destruct (server op (conn_session st)) as [[e'|] s'] eqn:E; simpl;
      intros [= <- <-]; eauto.
  - unfold logger_debug. discriminate.
  - unfold raise. intros [= <- <-]. auto.
Qed.

End InitializeFacts.

Section InitializeClaims.
Context {session : Type}.
Variable server : conn_op -> session -> option exn * session.


Lemma calls_of_log (msg : string) (l : list step) :
  calls_of (Log msg :: l) = calls_of l.
Proof. reflexivity. Qed.

Lemma calls_of_call (op : conn_op) (l : list step) :
  calls_of (Call op :: l) = op :: calls_of l.
Proof. reflexivity. Qed.

Lemma file_steps_read (fs : gmap string string) (paths : list string) :
  Forall (fun s => forall e, s <> Fail e) (map (file_step fs) paths) ->
  exists texts,
    Forall2 (fun path text => fs !! path = Some text) paths texts
    /\ calls_of (map (file_step fs) paths) = map Execute texts.
Proof.
  induction paths as [|p paths IH]; simpl.
  - exists []. split; [constructor | reflexivity].
  - intros H. apply Forall_cons in H as [Hp H].
    destruct (IH H) as (texts & HF & Hc).
    unfold file_step in Hp |- * at 1.
    destruct (fs !! p) as [text|] eqn:E.
    + exists (text :: texts). split; [by constructor|].
      change (Execute text :: calls_of (map (file_step fs) paths)
              = Execute text :: map Execute texts).
      by rewrite Hc.
    + exfalso. by eapply Hp.
Qed.

Lemma file_steps_execute (fs : gmap string string) (paths : list string) :
  Forall is_execute (calls_of (map (file_step fs) paths)).
Proof.
  induction paths as [|p paths IH]; simpl; [constructor|].
  unfold file_step at 1. destruct (fs !! p); cbn; [|exact IH].
  constructor; [exact I | exact IH].
Qed.

(** C2, as amended: a successful [initialize] sends, after the two
    codec registrations and the search-path statement, the text of
    every user file in the listed order and then the text of the
    bundled catalog file: the catalog is run in one step, which is the
    last operation of the connection and comes after every user
    resource, whatever the schemas and the user files are.  The text of
    the catalog is executed once more than the number of earlier
    statements that carry the same text: exactly once when no user
    file (and not the search-path statement) has the text of the
    catalog. *)
Theorem initialize_catalog_last (st st' : istate session) :
  initialize server st = (Return tt, st') ->
  exists texts catalog,
    Forall2 (fun path text => files st !! path = Some text)
            (user_sql_files (self st)) texts
    /\ files st !! DB_CATALOG_FILE = Some catalog
    /\ conn_trace st'
       = conn_trace st
         ++ [json_codec; jsonb_codec; search_path_op (self st)]
         ++ map Execute texts ++ [Execute catalog]
    /\ last (conn_trace st') = Some (Execute catalog)
    /\ count_occ conn_op_eq_dec
         ([json_codec; jsonb_codec; search_path_op (self st)]
          ++ map Execute texts ++ [Execute catalog])
         (Execute catalog)
       = S (count_occ conn_op_eq_dec
              (search_path_op (self st) :: map Execute texts)
              (Execute catalog))
    /\ (search_path_op (self st) <> Execute catalog ->
        ~ In catalog texts ->
        count_occ conn_op_eq_dec
          ([json_codec; jsonb_codec; search_path_op (self st)]
           ++ map Execute texts ++ [Execute catalog])
          (Execute catalog) = 1).
Proof.
  rewrite initialize_script. intros H.
  apply run_script_return in H as [Ht HF].
  unfold script in HF.
  apply Forall_app in HF as [_ HF]. apply Forall_app in HF as [HF Hc].
  destruct (file_steps_read _ _ HF) as (texts & H2 & Hcalls).
  rewrite Forall_singleton in Hc. unfold file_step in Hc.
  destruct (files st !! DB_CATALOG_FILE) as [catalog|] eqn:Ecat;
    [|exfalso; by eapply Hc].
  exists texts, catalog. split; [exact H2|]. split; [reflexivity|].
  assert (conn_trace st'
          = conn_trace st
            ++ [json_codec; jsonb_codec; search_path_op (self st)]
            ++ map Execute texts ++ [Execute catalog]) as ->.
  { rewrite Ht. f_equal. unfold script.
    rewrite !calls_of_app, Hcalls. unfold file_step. rewrite Ecat.
    reflexivity. }
  split; [reflexivity|].
  split; [rewrite !app_assoc; apply last_snoc|].
  assert (Hcount :
    count_occ conn_op_eq_dec
      ([json_codec; jsonb_codec; search_path_op (self st)]
       ++ map Execute texts ++ [Execute catalog])
      (Execute catalog)
    = S (count_occ conn_op_eq_dec
           (search_path_op (self st) :: map Execute texts)
           (Execute catalog))).
  { change ([json_codec; jsonb_codec; search_path_op (self st)]
            ++ map Execute texts ++ [Execute catalog])
      with (json_codec :: jsonb_codec
            :: (search_path_op (self st) :: map Execute texts)
               ++ [Execute catalog]).
    rewrite !count_occ_cons_neq by discriminate.
    rewrite count_occ_app.
    rewrite (count_occ_cons_eq conn_op_eq_dec [] (eq_refl (Execute catalog))).
    change (count_occ conn_op_eq_dec [] (Execute catalog)) with 0. lia. }
  split; [exact Hcount|].
  intros Hsp Htexts. rewrite Hcount. f_equal.
  apply count_occ_not_In. intros [Hin|Hin]; [by apply Hsp|].
  apply in_map_iff in Hin as (t & [= ->] & Hin). by apply Htexts.
Qed.

(** The cause of an exception: when [initialize] raises, the script
    splits into the steps before the failing one, which all succeeded,
    the failing step, whose exception is the one returned, and the
    steps after it, none of which reached the connection. *)
Lemma initialize_raise_cause (st st' : istate session) (e : exn) :
  initialize server st = (Raise e, st') ->
  exists before failing after st_mid,
    script (self st) (files st) = before ++ failing :: after
    /\ run_script server before st = (Return tt, st_mid)
    /\ run_step server failing st_mid = (Raise e, st')
    /\ ((failing = Fail e /\ st' = st_mid)
        \/ exists op,
             failing = Call op
             /\ server op (conn_session st_mid) = (Some e, conn_session st'))
    /\ conn_trace st' = conn_trace st ++ calls_of (before ++ [failing]).
Proof.
  rewrite initialize_script. intros H.
  apply run_script_raise in H
    as (before & failing & after & st_mid & Hs & Hb & Hf).
  exists before, failing, after, st_mid.
  split; [exact Hs|]. split; [exact Hb|]. split; [exact Hf|].
  split; [exact (run_step_raise _ _ _ _ _ Hf)|].
  rewrite calls_of_app, app_assoc.
  apply run_script_return in Hb as [<- _].
  eapply run_step_trace; eauto.
Qed.

(** Steps that read no missing file and whose operations the server
    accepts one after the other all run, and leave the session the
    server is in after those operations. *)
Lemma run_script_accepts (steps : list step) (st : istate session) :
  Forall (fun s => forall e, s <> Fail e) steps ->
  accepts server (calls_of steps) (conn_session st) ->
  exists st',
    run_script server steps st = (Return tt, st')
    /\ conn_session st'
       = session_after server (calls_of steps) (conn_session st).
Proof.
  unfold run_script. revert st.
  induction steps as [|s steps IH]; intros st Hread Hacc.
  - exists st. by split.
  - apply Forall_cons in Hread as [Hs Hread].
    cbn [for_each]. unfold bind.
    destruct s as [op|msg|e].
    + rewrite calls_of_call in Hacc |- *.
      destruct Hacc as [Hop Hacc]. cbn [run_step]. unfold conn_call.
      rewrite Hop.
      destruct (IH {| self := self st;
                      conn_session := snd (server op (conn_session st));
                      conn_trace := conn_trace st ++ [op];
                      files := files st; log := log st |} Hread Hacc)
        as (st' & Hrun & Hsess).
      exists st'. by split.
    + rewrite calls_of_log in Hacc |- *. cbn [run_step]. unfold logger_debug.
      destruct (IH {| self := self st; conn_session := conn_session st;
                      conn_trace := conn_trace st; files := files st;
                      log := log st ++ [msg] |} Hread Hacc)
        as (st' & Hrun & Hsess).
      exists st'. by split.
    + exfalso. by eapply Hs.
Qed.

(** An operation reaches the connection when a step calls it. *)
Lemma calls_of_In (op : conn_op) (steps : list step) :
  In op (calls_of steps) -> In (Call op) steps.
Proof.
  induction steps as [|s steps IH]; [intros []|].
  destruct s as [op'|msg|e].
  - rewrite calls_of_call. intros [->|Hin]; [by left | right; auto].
  - rewrite calls_of_log. right; auto.
  - change (calls_of (Fail e :: steps)) with (calls_of steps). right; auto.
Qed.

(** C4, as amended: take any step of the script such that the steps
    before it read no missing file and have their operations accepted.
    When that step fails, because its file cannot be read or because
    the server refuses its operation, [initialize] raises the exception
    of that step, and the connection has been asked the operations of
    the steps up to the failing one and nothing more: no later step
    runs.  The catalog step is the last of the script, so it is among
    the steps not run unless it is the failing step itself; when it is
    not run, the text of the catalog is not among the operations sent,
    provided that no user file has that text (and that the search-path
    statement is not that text). *)
Theorem initialize_failure_aborts (st : istate session)
    (before : list step) (failing : step) (after : list step) (e : exn) :
  script (self st) (files st) = before ++ failing :: after ->
  Forall (fun s => forall e', s <> Fail e') before ->
  accepts server (calls_of before) (conn_session st) ->
  (failing = Fail e
   \/ exists op,
        failing = Call op
        /\ fst (server op (session_after server (calls_of before)
                             (conn_session st))) = Some e) ->
  exists st',
    initialize server st = (Raise e, st')
    /\ conn_trace st' = conn_trace st ++ calls_of (before ++ [failing])
    /\ (failing = Fail e -> calls_of (before ++ [failing]) = calls_of before)
    /\ (after = []
        \/ exists after',
             after = after' ++ [file_step (files st) DB_CATALOG_FILE])
    /\ (after <> [] ->
        forall catalog,
          files st !! DB_CATALOG_FILE = Some catalog ->
          (forall path,
              In path (user_sql_files (self st)) ->
              files st !! path <> Some catalog) ->
          search_path_op (self st) <> Execute catalog ->
          ~ In (Execute catalog) (calls_of (before ++ [failing]))).
Proof.
  intros Hs Hread Hacc Hfail.
  destruct (run_script_accepts before st Hread Hacc)
    as (st_mid & Hmid & Hsess).
  assert (Hstep : exists st',
             run_step server failing st_mid = (Raise e, st')
             /\ conn_trace st' = conn_trace st_mid ++ calls_of [failing]).
  { destruct Hfail as [->|(op & -> & Hop)].
    - exists st_mid. split; [reflexivity|]. simpl. by rewrite app_nil_r.
    - rewrite <- Hsess in Hop. cbn [run_step]. unfold conn_call.
      rewrite Hop. eexists. split; reflexivity. }
  destruct Hstep as (st' & Hstep & Htrace).
  exists st'. split.
  - rewrite initialize_script, Hs. unfold run_script in *.
    rewrite for_each_app. unfold bind at 1. rewrite Hmid.
    cbn [for_each]. unfold bind. by rewrite Hstep.
  - split.
    + rewrite Htrace, calls_of_app, app_assoc.
      by apply run_script_return in Hmid as [-> _].
    + split.
      * intros ->. rewrite calls_of_app. simpl. by rewrite app_nil_r.
      * destruct after as [|a after _] using rev_ind;
          [split; [by left | by intros []]|].
        unfold script in Hs.
        rewrite !app_assoc in Hs. rewrite app_comm_cons, app_assoc in Hs.
        apply app_inj_tail in Hs as [Hs Ha].
        split; [right; exists after; by rewrite Ha|].
        intros _ catalog Hcat Huser Hsp Hin.
        apply calls_of_In in Hin.
        assert (Hin' : In (Call (Execute catalog))
                         ((before ++ [failing]) ++ after))
          by (apply in_or_app; by left).
        rewrite <- app_assoc in Hin'. simpl in Hin'.
        rewrite <- Hs in Hin'.
        apply in_app_or in Hin' as [Hhead|Hfile].
        -- destruct Hhead as [[=]|[[=]|[[=]|[Hop|[]]]]].
           apply Hsp. congruence.
        -- apply in_map_iff in Hfile as (path & Hfile & Hpath).
           unfold file_step in Hfile.
           destruct (files st !! path) as [text|] eqn:Etext;
             [|discriminate].
           injection Hfile as ->. by apply (Huser path).
Qed.

(** Whatever the outcome, the operations of a run are those of the
    steps it went through, a first part of the script that is not
    empty and is the whole script when the run returns. *)
Lemma initialize_progress (st st' : istate session) (r : result unit) :
  initialize server st = (r, st') ->
  exists done rest,
    script (self st) (files st) = done ++ rest
    /\ done <> []
    /\ conn_trace st' = conn_trace st ++ calls_of done
    /\ (r = Return tt -> rest = [])
    /\ (forall e, r = Raise e ->
          exists before failing st_mid,
            done = before ++ [failing]
            /\ run_script server before st = (Return tt, st_mid)
            /\ run_step server failing st_mid = (Raise e, st')).
Proof.
  rewrite initialize_script. intros H. destruct r as [[]|e].
  - exists (script (self st) (files st)), [].
    apply run_script_return in H as [-> _].
    rewrite app_nil_r. repeat split; try done.
  - apply run_script_raise in H
      as (before & failing & after & st_mid & Hs & Hb & Hf).
    exists (before ++ [failing]), after.
    split; [by rewrite <- app_assoc|].
    split; [by destruct before|].
    split.
    { rewrite calls_of_app, app_assoc.
      apply run_script_return in Hb as [<- _].
      eapply run_step_trace; eauto. }
    split; [discriminate|].
    intros e' [= <-]. by exists before, failing, st_mid.
Qed.

(** C5: whatever the connection and the configuration, the first thing
    [initialize] asks of the connection is the codec of [json], and the
    second, when the first is accepted, the codec of [jsonb]; both bind
    [orjson.dumps] and [orjson.loads] in schema [pg_catalog].  Every
    other operation of the run is an executed statement, so no other
    type gets a codec, and the search-path statement and every SQL
    resource come after the two registrations. *)
Theorem initialize_codecs_first (st st' : istate session) (r : result unit) :
  initialize server st = (r, st') ->
  (exists e,
      r = Raise e
      /\ fst (server
                (SetTypeCodec "json" orjson_dumps orjson_loads "pg_catalog")
                (conn_session st)) = Some e
      /\ conn_trace st'
         = conn_trace st
           ++ [SetTypeCodec "json" orjson_dumps orjson_loads "pg_catalog"])
  \/ (exists statements,
        conn_trace st'
        = conn_trace st
          ++ SetTypeCodec "json" orjson_dumps orjson_loads "pg_catalog"
             :: SetTypeCodec "jsonb" orjson_dumps orjson_loads "pg_catalog"
             :: statements
        /\ Forall is_execute statements
        /\ (r = Return tt -> statements <> [])).
Proof.
  intros H.
  destruct (initialize_progress _ _ _ H)
    as (done & rest & Hs & Hne & Ht & Hret & Hraise).
  unfold script in Hs.
  destruct done as [|s1 done]; [done|].
  injection Hs as <- Hs.
  destruct done as [|s2 done].
  - left. destruct r as [[]|e].
    + specialize (Hret eq_refl). subst rest. discriminate Hs.
    + exists e. split; [reflexivity|]. split; [|exact Ht].
      destruct (Hraise e eq_refl) as (before & failing & st_mid
                                      & Hd & Hb & Hf).
      destruct before as [|b before];
        [|destruct before; discriminate Hd].
      injection Hd as <-. cbn in Hb. injection Hb as <-.
      apply run_step_raise in Hf as [[Hf _]|(op & [= <-] & Hf)];
        [discriminate | exact (f_equal fst Hf)].
  - right. injection Hs as <- Hs. exists (calls_of done).
    split; [exact Ht|].
    assert (HF : Forall is_execute (calls_of (done ++ rest))).
    { rewrite <- Hs, calls_of_log, calls_of_call, calls_of_app.
      apply Forall_cons. split; [exact I|].
      apply Forall_app. split; [apply file_steps_execute|].
      apply (file_steps_execute _ [DB_CATALOG_FILE]). }
    rewrite calls_of_app in HF. apply Forall_app in HF as [HF _].
    split; [exact HF|].
    intros Hr. specialize (Hret Hr). subst rest.
    rewrite app_nil_r in Hs. subst done. discriminate.
Qed.

End InitializeClaims.

Lemma initialize_catalog_last_witness :
  let st := demo_state ["public"] ["funcs.sql"] "public" in
  let st' := snd (initialize pg_server st) in
  initialize pg_server st = (Return tt, st')
  /\ last (conn_trace st')
     = Some (Execute "CREATE FUNCTION pg_temp.tipg_catalog() ...")
  /\ count_occ conn_op_eq_dec (conn_trace st')
       (Execute "CREATE FUNCTION pg_temp.tipg_catalog() ...") = 1.
Proof.
  intros st st'.
  assert (H : initialize pg_server st = (Return tt, st'))
    by (vm_compute; reflexivity).
  split; [exact H|].
  destruct (initialize_catalog_last pg_server st st' H)
    as (texts & catalog & _ & Hcat & Htrace & Hlast & _ & Honce).
  assert (catalog = "CREATE FUNCTION pg_temp.tipg_catalog() ...") as ->
    by (vm_compute in Hcat; by injection Hcat).
  split; [exact Hlast|]. vm_compute. reflexivity.
Defined.

(** C2, as first stated, fails: when the user lists the catalog file
    itself, a successful [initialize] executes the text of the catalog
    twice. *)
Lemma initialize_catalog_twice :
  let st := demo_state ["public"] [DB_CATALOG_FILE] "public" in
  let st' := snd (initialize pg_server st) in
  initialize pg_server st = (Return tt, st')
  /\ files st !! DB_CATALOG_FILE
     = Some "CREATE FUNCTION pg_temp.tipg_catalog() ..."
  /\ count_occ conn_op_eq_dec (conn_trace st')
       (Execute "CREATE FUNCTION pg_temp.tipg_catalog() ...") = 2.
Proof.
  cbv zeta. split; [vm_compute; reflexivity|].
  split; vm_compute; reflexivity.
Defined.

(** C4, as first stated, fails in its last part: when the user lists
    the catalog file before a file that fails, the text of the catalog
    has been executed on the connection although a user resource
    failed. *)
Lemma initialize_catalog_before_failure :
  let st := demo_state ["public"] [DB_CATALOG_FILE; "broken.sql"] "public" in
  let st' := snd (initialize pg_server st) in
  initialize pg_server st = (Raise division_by_zero, st')
  /\ files st !! DB_CATALOG_FILE
     = Some "CREATE FUNCTION pg_temp.tipg_catalog() ..."
  /\ conn_trace st'
     = [json_codec; jsonb_codec; search_path_op (self st);
        Execute "CREATE FUNCTION pg_temp.tipg_catalog() ...";
        Execute "SELECT 1/0;"]
  /\ In (Execute "CREATE FUNCTION pg_temp.tipg_catalog() ...")
        (conn_trace st').
Proof.
  cbv zeta. split; [vm_compute; reflexivity|].
  split; [vm_compute; reflexivity|].
  split; [vm_compute; reflexivity|].
  vm_compute. tauto.
Defined.

Lemma initialize_failure_aborts_witness :
  let st := demo_state ["public"] ["broken.sql"; "funcs.sql"] "public" in
  exists st',
    initialize pg_server st = (Raise division_by_zero, st')
    /\ conn_trace st'
       = [json_codec; jsonb_codec; search_path_op (self st);
          Execute "SELECT 1/0;"].
Proof.
  intros st.
  destruct (initialize_failure_aborts pg_server st
              [Call json_codec; Call jsonb_codec;
               Log (debug_message (join "," ("pg_temp" :: schemas (self st))));
               Call (search_path_op (self st))]
              (Call (Execute "SELECT 1/0;"))
              [Call (Execute "CREATE FUNCTION pg_temp.squares() ...");
               Call (Execute "CREATE FUNCTION pg_temp.tipg_catalog() ...")]
              division_by_zero)
    as (st' & Hrun & Htrace & _ & _ & _).
  - vm_compute. reflexivity.
  - repeat constructor; discriminate.
  - vm_compute. repeat split.
  - right. eexists. split; [reflexivity|]. vm_compute. reflexivity.
  - exists st'. split; [exact Hrun | exact Htrace].
Defined.

Lemma initialize_codecs_first_witness :
  let st := demo_state ["public"] ["funcs.sql"] "public" in
  let st' := snd (initialize pg_server st) in
  exists statements,
    conn_trace st'
    = conn_trace st
      ++ SetTypeCodec "json" orjson_dumps orjson_loads "pg_catalog"
         :: SetTypeCodec "jsonb" orjson_dumps orjson_loads "pg_catalog"
         :: statements
    /\ Forall is_execute statements
    /\ statements <> [].
Proof.
  intros st st'.
  assert (H : initialize pg_server st = (Return tt, st'))
    by (vm_compute; reflexivity).
  destruct (initialize_codecs_first pg_server st st' (Return tt) H)
    as [(e & He & _) | (statements & Ht & HF & Hne)].
  - discriminate He.
  - exists statements. split; [exact Ht|]. split; [exact HF|].
    exact (Hne eq_refl).
Defined.

(** * Properties of the search-path statement *)

Section StringFacts.

Lemma append_cons (a : ascii) (s t : string) :
  String a s +:+ t = String a (s +:+ t).
Proof. reflexivity. Qed.

Lemma append_empty (t : string) : EmptyString +:+ t = t.
Proof. reflexivity. Qed.

Lemma append_assoc (s t u : string) : (s +:+ t) +:+ u = s +:+ t +:+ u.
Proof.
  induction s as [|a s IH]; [reflexivity|].
  rewrite !append_cons. by rewrite IH.
Qed.

Lemma has_char_append (c : ascii) (s t : string) :
  has_char c (s +:+ t) = has_char c s || has_char c t.
Proof.
  induction s as [|a s IH]; [reflexivity|].
  rewrite append_cons. simpl. rewrite IH. by rewrite orb_assoc.
Qed.

(** Cutting at the first separator. *)
Lemma split_on_first (c : ascii) (s t : string) :
  has_char c s = false ->
  split_on c (s +:+ String c t) = s :: split_on c t.
Proof.
  induction s as [|a s IH]; intros H.
  - rewrite append_empty. simpl. by rewrite Ascii.eqb_refl.
  - simpl in H. apply orb_false_iff in H as [Ha Hs].
    rewrite append_cons. simpl. rewrite Ha, (IH Hs). reflexivity.
Qed.

(** Names without a comma, joined by commas and put before a search
    path, are the first names of the result. *)
Lemma path_elems_join (name : string) (names : list string) (old : string) :
  Forall (fun n => has_char comma_char n = false) (name :: names) ->
  path_elems (join "," (name :: names) +:+ "," +:+ old)
  = name :: names ++ path_elems old.
Proof.
  revert name. induction names as [|n names IH]; intros name H.
  - apply Forall_cons in H as [H _]. simpl.
    apply (split_on_first comma_char name old H).
  - apply Forall_cons in H as [Hname H].
    change (join "," (name :: n :: names))
      with (name +:+ "," +:+ join "," (n :: names)).
    rewrite !append_assoc.
    unfold path_elems.
    change ("," +:+ join "," (n :: names) +:+ "," +:+ old)
      with (String comma_char (join "," (n :: names) +:+ "," +:+ old)).
    rewrite (split_on_first _ _ _ Hname). f_equal.
    apply (IH n H).
Qed.

Lemma has_char_join (c : ascii) (name : string) (names : list string) :
  has_char c "," = false ->
  Forall (fun n => has_char c n = false) (name :: names) ->
  has_char c (join "," (name :: names)) = false.
Proof.
  intros Hc. revert name. induction names as [|n names IH]; intros name H.
  - by apply Forall_cons in H as [H _].
  - apply Forall_cons in H as [Hname H].
    change (join "," (name :: n :: names))
      with (name +:+ "," +:+ join "," (n :: names)).
    rewrite !has_char_append, Hname, Hc, (IH n H). reflexivity.
Qed.

Lemma strip_prefix_append (p s : string) :
  strip_prefix p (p +:+ s) = Some s.
Proof.
  induction p as [|a p IH]; [reflexivity|].
  rewrite append_cons. simpl. by rewrite Ascii.eqb_refl.
Qed.

(** A text without a quote, followed by a quote and by something that
    does not start with a quote, is one literal. *)
Lemma scan_literal_plain (value rest : string) (a : ascii) :
  has_char quote_char value = false ->
  Ascii.eqb a quote_char = false ->
  scan_literal (value +:+ String quote_char (String a rest))
  = Some (value, String a rest).
Proof.
  intros Hv Ha. induction value as [|b value IH].
  - rewrite append_empty. simpl. by rewrite Ha.
  - simpl in Hv. apply orb_false_iff in Hv as [Hb Hv].
    rewrite append_cons. simpl. rewrite Hb, (IH Hv). reflexivity.
Qed.

End StringFacts.

Section TwoRuns.
Context {session : Type}.
Variable server : conn_op -> session -> option exn * session.



Lemma initialize_frame (st st' : istate session) (r : result unit) :
  initialize server st = (r, st') ->
  self st' = self st /\ files st' = files st.
Proof. rewrite initialize_script. apply run_script_frame. Qed.

(** The script depends on the files through the user files and the
    catalog file only. *)
Lemma script_ext (this : connection_factory) (fs1 fs2 : gmap string string) :
  Forall (fun path => fs2 !! path = fs1 !! path)
         (user_sql_files this ++ [DB_CATALOG_FILE]) ->
  script this fs2 = script this fs1.
Proof.
  intros H. apply Forall_app in H as [Huser Hcat].
  rewrite Forall_singleton in Hcat.
  unfold script, file_step. rewrite Hcat. do 2 f_equal.
  induction Huser as [|path paths Hpath _ IH]; [reflexivity|].
  simpl. by rewrite Hpath, IH.
Qed.

Section Indistinguishable.
(** A relation between sessions that the server respects: on related
    sessions it gives every operation the same outcome and leaves
    related sessions.  Equality is such a relation for every server. *)
Variable alike : session -> session -> Prop.
Hypothesis server_respects : forall op s1 s2,
  alike s1 s2 ->
  fst (server op s1) = fst (server op s2)
  /\ alike (snd (server op s1)) (snd (server op s2)).

(** Two runs of the same steps from related sessions stop at the same
    step with the same outcome; each has sent the operations of the
    steps it ran, to the end of the list when it returns, and its
    session is the one the server reaches through those operations. *)
Lemma run_script_alike (steps : list step)
    (st1 st2 st1' st2' : istate session) (r1 r2 : result unit) :
  alike (conn_session st1) (conn_session st2) ->
  run_script server steps st1 = (r1, st1') ->
  run_script server steps st2 = (r2, st2') ->
  r2 = r1
  /\ alike (conn_session st1') (conn_session st2')
  /\ exists ran rest,
       steps = ran ++ rest
       /\ (r1 = Return tt -> rest = [])
       /\ conn_trace st1' = conn_trace st1 ++ calls_of ran
       /\ conn_trace st2' = conn_trace st2 ++ calls_of ran
       /\ conn_session st1'
          = session_after server (calls_of ran) (conn_session st1)
       /\ conn_session st2'
          = session_after server (calls_of ran) (conn_session st2).
Proof.
  unfold run_script. revert st1 st2 st1' st2' r1 r2.
  induction steps as [|s steps IH]; intros st1 st2 st1' st2' r1 r2 Hs.
  - cbn [for_each]. unfold ret. intros [= <- <-] [= <- <-].
    split; [reflexivity|]. split; [exact Hs|].
    exists [], []. by rewrite !app_nil_r.
  - cbn [for_each]. unfold bind. destruct s as [op|msg|e]; cbn [run_step].
    + unfold conn_call.
      destruct (server_respects op _ _ Hs) as [Hout Hnext].
      rewrite <- Hout.
      destruct (fst (server op (conn_session st1))) as [e|].
      * intros [= <- <-] [= <- <-].
        split; [reflexivity|]. split; [exact Hnext|].
        exists [Call op], steps. split; [reflexivity|].
        split; [discriminate|]. by rewrite calls_of_call.
      * intros H1 H2.
        pose proof (fun H => IH _ _ _ _ _ _ H H1 H2) as IH'.
        destruct (IH' Hnext)
          as (Hr & Hsess & ran & rest & Hsteps & Hrest & Ht1 & Ht2
              & Hs1 & Hs2).
        split; [exact Hr|]. split; [exact Hsess|].
        exists (Call op :: ran), rest. rewrite calls_of_call.
        cbn [conn_trace conn_session] in Ht1, Ht2, Hs1, Hs2.
        rewrite Hsteps, Ht1, Ht2, <- !app_assoc. by repeat split.
    + unfold logger_debug. intros H1 H2.
      pose proof (fun H => IH _ _ _ _ _ _ H H1 H2) as IH'.
      destruct (IH' Hs)
        as (Hr & Hsess & ran & rest & Hsteps & Hrest & Ht1 & Ht2
            & Hs1 & Hs2).
      split; [exact Hr|]. split; [exact Hsess|].
      exists (Log msg :: ran), rest. rewrite calls_of_log.
      cbn [conn_trace conn_session] in Ht1, Ht2, Hs1, Hs2.
      rewrite Hsteps. by repeat split.
    + unfold raise. intros [= <- <-] [= <- <-].
      split; [reflexivity|]. split; [exact Hs|].
      exists [Fail e], steps. split; [reflexivity|].
      split; [discriminate|]. simpl. by rewrite !app_nil_r.
Qed.

(** C8, as amended: take two connections whose sessions start in
    states the server does not tell apart (the same state, in
    particular), initialised one after the other through the same
    factory object, the second run finding in the user files and in
    the catalog file the contents the first run found.  The first run
    leaves the factory as it found it, so the second reads the same
    [schemas] and [user_sql_files]; both runs have the same outcome and
    stop at the same step of the script, after the whole script when
    they return; both connections were asked the operations of the
    steps run, each session is the one the server reaches through
    these operations, and the two final sessions are again states the
    server does not tell apart. *)
Theorem initialize_deterministic
    (st1 st2 st1' st2' : istate session) (r1 r2 : result unit) :
  initialize server st1 = (r1, st1') ->
  self st2 = self st1' ->
  Forall (fun path => files st2 !! path = files st1' !! path)
         (user_sql_files (self st1) ++ [DB_CATALOG_FILE]) ->
  alike (conn_session st1) (conn_session st2) ->
  initialize server st2 = (r2, st2') ->
  self st1' = self st1
  /\ schemas (self st2) = schemas (self st1)
  /\ user_sql_files (self st2) = user_sql_files (self st1)
  /\ self st2' = self st1
  /\ r2 = r1
  /\ alike (conn_session st1') (conn_session st2')
  /\ exists ran rest,
       script (self st1) (files st1) = ran ++ rest
       /\ (r1 = Return tt -> rest = [])
       /\ conn_trace st1' = conn_trace st1 ++ calls_of ran
       /\ conn_trace st2' = conn_trace st2 ++ calls_of ran
       /\ conn_session st1'
          = session_after server (calls_of ran) (conn_session st1)
       /\ conn_session st2'
          = session_after server (calls_of ran) (conn_session st2).
Proof.
  intros H1 Hself Hfiles Hsess H2.
  destruct (initialize_frame _ _ _ H1) as [Hs1 Hf1].
  destruct (initialize_frame _ _ _ H2) as [Hs2 Hf2].
  rewrite Hs1 in Hself. rewrite Hf1 in Hfiles.
  split; [exact Hs1|]. split; [by rewrite Hself|].
  split; [by rewrite Hself|]. split; [congruence|].
  rewrite initialize_script in H1, H2.
  rewrite Hself, (script_ext _ _ _ Hfiles) in H2.
  exact (run_script_alike _ _ _ _ _ _ _ Hsess H1 H2).
Qed.

End Indistinguishable.


End TwoRuns.

(** The small server answers by the statement and the search path of
    the session, and keeps search path and codecs apart from the
    scripts it has run: it does not tell apart two sessions with the
    same search path and the same codecs. *)
Lemma pg_server_respects (op : conn_op) (s1 s2 : pg_session) :
  same_path_and_codecs s1 s2 ->
  fst (pg_server op s1) = fst (pg_server op s2)
  /\ same_path_and_codecs (snd (pg_server op s1)) (snd (pg_server op s2)).
Proof.
  intros [Hpath Hcodecs]. unfold same_path_and_codecs.
  destruct op as [typename encoder decoder schema|sql]; simpl.
  - by rewrite Hpath, Hcodecs.
  - assert (Hset : pg_setting s1 = pg_setting s2)
      by (unfold pg_setting; by rewrite Hpath).
    destruct (tokenize sql) as [tokens|]; [|by split].
    destruct (parse_set_config tokens) as [call|].
    + destruct (String.eqb (sc_name call) "search_path"
                && negb (sc_is_local call)); simpl; [|by split].
      by rewrite Hset, Hcodecs.
    + destruct (String.prefix "SELECT 1/0" sql); simpl; by split.
Qed.

(** C8, as first stated, fails: two connections initialised through the
    same factory, one on a server whose search path is [public] and one
    on a server whose search path is [app], end with different search
    paths; and two connections that start in the same state end in
    different states when the user file has changed in between. *)
Lemma initialize_two_servers_differ :
  let st_a := demo_state [] ["funcs.sql"] "public" in
  let st_b := demo_state [] ["funcs.sql"] "app" in
  let st_c := {| self := self st_a; conn_session := conn_session st_a;
                 conn_trace := conn_trace st_a;
                 files := <["funcs.sql" := "CREATE FUNCTION pg_temp.cubes() ..."]>
                            (files st_a);
                 log := log st_a |} in
  (self st_a = self st_b
   /\ files st_a = files st_b
   /\ fst (initialize pg_server st_a) = Return tt
   /\ fst (initialize pg_server st_b) = Return tt
   /\ pg_search_path (conn_session (snd (initialize pg_server st_a)))
      = "pg_temp,public"
   /\ pg_search_path (conn_session (snd (initialize pg_server st_b)))
      = "pg_temp,app"
   /\ conn_session (snd (initialize pg_server st_a))
      <> conn_session (snd (initialize pg_server st_b)))
  /\ (self st_a = self st_c
      /\ conn_session st_a = conn_session st_c
      /\ fst (initialize pg_server st_a) = Return tt
      /\ fst (initialize pg_server st_c) = Return tt
      /\ pg_scripts (conn_session (snd (initialize pg_server st_a)))
         = ["CREATE FUNCTION pg_temp.squares() ...";
            "CREATE FUNCTION pg_temp.tipg_catalog() ..."]
      /\ pg_scripts (conn_session (snd (initialize pg_server st_c)))
         = ["CREATE FUNCTION pg_temp.cubes() ...";
            "CREATE FUNCTION pg_temp.tipg_catalog() ..."]
      /\ conn_session (snd (initialize pg_server st_a))
         <> conn_session (snd (initialize pg_server st_c))).
Proof.
  cbv zeta. split.
  - split; [reflexivity|]. split; [reflexivity|].
    split; [vm_compute; reflexivity|]. split; [vm_compute; reflexivity|].
    split; [vm_compute; reflexivity|]. split; [vm_compute; reflexivity|].
    vm_compute. discriminate.
  - split; [reflexivity|]. split; [reflexivity|].
    split; [vm_compute; reflexivity|]. split; [vm_compute; reflexivity|].
    split; [vm_compute; reflexivity|]. split; [vm_compute; reflexivity|].
    vm_compute. discriminate.
Defined.

Lemma initialize_deterministic_witness :
  let st1 := demo_state ["public"] ["funcs.sql"] "public" in
  let st1' := snd (initialize pg_server st1) in
  let st2 :=
    {| self := self st1';
       conn_session := {| pg_search_path := "public"; pg_codecs := [];
                          pg_scripts := ["CREATE TABLE earlier ..."] |};
       conn_trace := [Execute "CREATE TABLE earlier ..."];
       files := <["notes.txt" := "not read"]> (files st1');
       log := log st1' |} in
  let st2' := snd (initialize pg_server st2) in
  initialize pg_server st1 = (Return tt, st1')
  /\ conn_session st2 <> conn_session st1
  /\ files st2 <> files st1
  /\ fst (initialize pg_server st2) = Return tt
  /\ pg_search_path (conn_session st2') = "pg_temp,public,public"
  /\ same_path_and_codecs (conn_session st1') (conn_session st2')
  /\ conn_trace st1'
     = [json_codec; jsonb_codec; search_path_op (self st1);
        Execute "CREATE FUNCTION pg_temp.squares() ...";
        Execute "CREATE FUNCTION pg_temp.tipg_catalog() ..."]
  /\ conn_trace st2' = conn_trace st2 ++ conn_trace st1'.
Proof.
  intros st1 st1' st2 st2'.
  assert (H1 : initialize pg_server st1 = (Return tt, st1'))
    by (vm_compute; reflexivity).
  assert (H2 : initialize pg_server st2 = (Return tt, st2'))
    by (vm_compute; reflexivity).
  split; [exact H1|].
  split; [vm_compute; discriminate|].
  split; [intros Hf; apply (f_equal (fun fs => fs !! "notes.txt")) in Hf;
          vm_compute in Hf; discriminate|].
  split; [vm_compute; reflexivity|].
  split; [vm_compute; reflexivity|].
  destruct (initialize_deterministic pg_server same_path_and_codecs
              pg_server_respects st1 st2 st1' st2'
              (Return tt) (Return tt) H1)
    as (_ & _ & _ & _ & _ & Halike & ran & rest & Hscript & Hrest
        & Ht1 & Ht2 & _);
    [reflexivity
     | repeat constructor
     | vm_compute; split; reflexivity
     | exact H2 |].
  split; [exact Halike|].
  specialize (Hrest eq_refl). subst rest. rewrite app_nil_r in Hscript.
  rewrite <- Hscript in Ht1, Ht2.
  split; [exact Ht1|].
  rewrite Ht2, Ht1. reflexivity.
Defined.

Section ReadingFacts.

Lemma snoc_append (v : string) (c : ascii) (rest : string) :
  snoc v c +:+ rest = v +:+ String c rest.
Proof. unfold snoc. by rewrite append_assoc. Qed.

(** Inside a literal, characters other than the quote are taken as they
    come. *)
Lemma lex_literal (lit rest v : string) (out : list token) :
  has_char quote_char lit = false ->
  lex (InString v) out (lit +:+ rest) = lex (InString (v +:+ lit)) out rest.
Proof.
  revert v. induction lit as [|c lit IH]; intros v Hq.
  - rewrite append_empty.
    replace (v +:+ EmptyString) with v; [reflexivity|].
    clear. induction v as [|a v IH]; [reflexivity|].
    by rewrite append_cons, <- IH.
  - simpl in Hq. apply orb_false_iff in Hq as [Hc Hq].
    rewrite append_cons. cbn [lex lex_step]. rewrite Hc. cbn [fst snd].
    rewrite app_nil_r, (IH _ Hq), snoc_append. reflexivity.
Qed.

(** The statement the code builds around a text without a quote reads
    as a call of [set_config] on [search_path], not local, whose value
    is that text and a comma as a literal, concatenated with the
    current setting of [search_path]. *)
Lemma read_search_path_sql (prefix : string) :
  has_char quote_char prefix = false ->
  read_set_config (search_path_sql prefix)
  = Some {| sc_name := "search_path";
            sc_value := EConcat (ELit (prefix +:+ ","))
                                (ECurrentSetting "search_path");
            sc_is_local := false |}.
Proof.
  intros Hq. unfold read_set_config, tokenize, search_path_sql.
  change (lex Idle [] (search_path_sql_head
                       +:+ prefix +:+ search_path_sql_tail))
    with (lex (InString EmptyString)
              [TWord "SELECT"; TWord "set_config"; TLParen;
               TString "search_path"; TComma]
              (prefix +:+ search_path_sql_tail)).
  rewrite (lex_literal prefix _ _ _ Hq), append_empty.
  reflexivity.
Qed.



End ReadingFacts.

Section SearchPath.
Context {session : Type}.
Variable server : conn_op -> session -> option exn * session.

(** The settings of a session, and what the server is taken to do: a
    statement that reads as [SELECT set_config('search_path', value,
    false)] and is accepted sets [search_path] to the value of the
    expression, computed in the session it is sent to. *)
Variable setting_of : session -> string -> string.

Hypothesis server_set_config : forall sql value s s',
  read_set_config sql
  = Some {| sc_name := "search_path"; sc_value := value;
            sc_is_local := false |} ->
  server (Execute sql) s = (None, s') ->
  setting_of s' "search_path" = eval_expr (setting_of s) value.

Lemma resources_script (st : istate session) :
  bind (register_user_sql server) (fun _ => register_catalog server) st
  = run_script server
      (map (file_step (files st)) (user_sql_files (self st))
       ++ [file_step (files st) DB_CATALOG_FILE]) st.
Proof.
  unfold register_user_sql, register_catalog, run_script.
  rewrite for_each_app. apply bind_cong.
  - exact (user_loop_script server (user_sql_files (self st)) st).
  - intros [] st1 E. apply run_script_frame in E as [_ Hf].
    rewrite read_then_execute, Hf. simpl. unfold bind, ret.
    destruct (run_step server _ st1) as [[[]|e] st2]; reflexivity.
Qed.

Lemma run_script_invariant (I : session -> Prop) (steps : list step)
    (st st' : istate session) :
  (forall op s s',
      In (Call op) steps -> I s -> server op s = (None, s') -> I s') ->
  I (conn_session st) ->
  run_script server steps st = (Return tt, st') ->
  I (conn_session st').
Proof.
  unfold run_script. revert st.
  induction steps as [|s steps IH]; intros st Hstep HI; simpl.
  - unfold ret. by intros [= <-].
  - unfold bind.
    destruct (run_step server s st) as [[[]|e] st1] eqn:E; [|discriminate].
    apply IH.
    + intros op s0 s0' Hin. apply Hstep. by right.
    + destruct s as [op|msg|e]; simpl in E.
      * unfold conn_call in E.
        destruct (server op (conn_session st)) as [[e|] s'] eqn:Eop;
          simpl in E; [discriminate|].
        injection E as <-. simpl. eapply Hstep; eauto. by left.
      * unfold logger_debug in E. by injection E as <-.
      * discriminate.
Qed.

(** The three parts of a run that returns. *)
Lemma initialize_parts (st st' : istate session) :
  initialize server st = (Return tt, st') ->
  exists st_codecs st_mid,
    register_codecs server st = (Return tt, st_codecs)
    /\ set_search_path server st_codecs = (Return tt, st_mid)
    /\ bind (register_user_sql server) (fun _ => register_catalog server)
            st_mid = (Return tt, st').
Proof.
  unfold __call__. unfold bind at 1.
  destruct (register_codecs server st) as [[[]|e] st_codecs] eqn:E1;
    [|discriminate].
  unfold bind at 1.
  destruct (set_search_path server st_codecs) as [[[]|e] st_mid] eqn:E2;
    [|discriminate].
  intros H. exists st_codecs, st_mid.
  split; [reflexivity|]. split; [exact E2 | exact H].
Qed.

Lemma register_codecs_frame (st st_codecs : istate session) :
  register_codecs server st = (Return tt, st_codecs) ->
  self st_codecs = self st
  /\ files st_codecs = files st
  /\ ((forall typename enc dec schema s s',
          server (SetTypeCodec typename enc dec schema) s = (None, s') ->
          setting_of s' "search_path" = setting_of s "search_path") ->
      setting_of (conn_session st_codecs) "search_path"
      = setting_of (conn_session st) "search_path").
Proof.
  unfold register_codecs, set_type_codec, bind, conn_call.
  destruct (server (SetTypeCodec "json" orjson_dumps orjson_loads
                           "pg_catalog") (conn_session st))
    as [[e|] s1] eqn:E1; simpl; [discriminate|].
  destruct (server (SetTypeCodec "jsonb" orjson_dumps orjson_loads
                           "pg_catalog") s1)
    as [[e|] s2] eqn:E2; simpl; [discriminate|].
  intros [= <-]. simpl. split; [reflexivity|]. split; [reflexivity|].
  intros Hframe. apply Hframe in E1, E2. congruence.
Qed.

(** The search-path statement, read: for names without a quote it puts
    the joined names and a comma before the search path the session has
    when the statement runs. *)
Lemma set_search_path_text (st st_mid : istate session) :
  Forall (fun n => has_char quote_char n = false) (schemas (self st)) ->
  set_search_path server st = (Return tt, st_mid) ->
  setting_of (conn_session st_mid) "search_path"
  = join "," ("pg_temp" :: schemas (self st))
    +:+ "," +:+ setting_of (conn_session st) "search_path"
  /\ self st_mid = self st
  /\ files st_mid = files st.
Proof.
  intros Hq.
  unfold set_search_path, execute, get_self, logger_debug, bind, conn_call.
  simpl.
  destruct (server (Execute _) (conn_session st)) as [[e|] s1] eqn:E;
    simpl; [discriminate|].
  intros [= <-]. simpl. split; [|by split].
  assert (Hquote : has_char quote_char
                     (join "," ("pg_temp" :: schemas (self st))) = false).
  { apply has_char_join; [reflexivity|]. by constructor. }
  rewrite (server_set_config _ _ _ _ (read_search_path_sql _ Hquote) E).
  simpl. by rewrite append_assoc.
Qed.

Lemma resources_keep_path (st_mid st' : istate session) :
  (forall path text s s',
      In path (user_sql_files (self st_mid) ++ [DB_CATALOG_FILE]) ->
      files st_mid !! path = Some text ->
      server (Execute text) s = (None, s') ->
      setting_of s' "search_path" = setting_of s "search_path") ->
  bind (register_user_sql server) (fun _ => register_catalog server) st_mid
  = (Return tt, st') ->
  setting_of (conn_session st') "search_path"
  = setting_of (conn_session st_mid) "search_path".
Proof.
  intros Hkeep Hrun. rewrite resources_script in Hrun.
  apply (run_script_invariant
           (fun s => setting_of s "search_path"
                     = setting_of (conn_session st_mid) "search_path")
           _ _ _) in Hrun; [exact Hrun | | reflexivity].
  intros op s s' Hin Hs Hop. rewrite <- Hs.
  assert (Hfile : exists path text,
             In path (user_sql_files (self st_mid) ++ [DB_CATALOG_FILE])
             /\ files st_mid !! path = Some text
             /\ op = Execute text).
  { change [file_step (files st_mid) DB_CATALOG_FILE]
      with (map (file_step (files st_mid)) [DB_CATALOG_FILE]) in Hin.
    rewrite <- map_app in Hin.
    apply in_map_iff in Hin as (path & Hstep & Hin).
    unfold file_step in Hstep.
    destruct (files st_mid !! path) as [text|] eqn:Etext; [|discriminate].
    injection Hstep as <-. by exists path, text. }
  destruct Hfile as (path & text & Hin' & Htext & ->).
  by eapply Hkeep.
Qed.


End SearchPath.

(** The small server does what the theorem asks of a server. *)
Lemma pg_server_set_config (sql : string) (value : sql_expr)
    (s s' : pg_session) :
  read_set_config sql
  = Some {| sc_name := "search_path"; sc_value := value;
            sc_is_local := false |} ->
  pg_server (Execute sql) s = (None, s') ->
  pg_setting s' "search_path" = eval_expr (pg_setting s) value.
Proof.
  unfold read_set_config, pg_server.
  destruct (tokenize sql) as [tokens|]; [|discriminate].
  cbn [mbind option_bind]. intros ->. cbn [sc_name sc_is_local sc_value].
  by intros [= <-].
Qed.

Lemma pg_server_codec_keeps_path typename enc dec schema (s s' : pg_session) :
  pg_server (SetTypeCodec typename enc dec schema) s = (None, s') ->
  pg_setting s' "search_path" = pg_setting s "search_path".
Proof. simpl. by intros [= <-]. Qed.



Lemma lookup_map {A B} (f : A -> B) (l : list A) (i : nat) :
  map f l !! i = f <$> l !! i.
Proof.
  revert i. induction l as [|x l IH]; intros [|i]; simpl; auto.
Qed.

Section PoolFacts.
Variable network : list pool_call -> pool_request -> option exn.

(** What one call of [create_pool_b] does. *)
Lemma create_pool_b_return (req : pool_request) (w w' : world) (h : nat) :
  create_pool_b network req w = (Return h, w') ->
  repeated_keyword (req_kwargs req) = None
  /\ network (calls w) req = None
  /\ h = length (pools w)
  /\ pools w' = pools w ++ [open_pool req]
  /\ calls w' = calls w ++ [CreatePool req]
  /\ factories w' = factories w
  /\ app_state w' = app_state w
  /\ env_settings w' = env_settings w.
Proof.
  unfold create_pool_b.
  destruct (repeated_keyword (req_kwargs req)); [discriminate|].
  destruct (network (calls w) req); [discriminate|].
  intros [= <- <-]. simpl. repeat split; reflexivity.
Qed.

Lemma create_pool_b_raise (req : pool_request) (w w' : world) (e : exn) :
  create_pool_b network req w = (Raise e, w') ->
  pools w' = pools w
  /\ factories w' = factories w
  /\ app_state w' = app_state w
  /\ env_settings w' = env_settings w
  /\ ((repeated_keyword (req_kwargs req) = None
       /\ network (calls w) req = Some e
       /\ calls w' = calls w ++ [CreatePool req])
      \/ (exists k, repeated_keyword (req_kwargs req) = Some k
                    /\ e = TypeError k /\ calls w' = calls w)).
Proof.
  unfold create_pool_b.
  destruct (repeated_keyword (req_kwargs req)) as [k|].
  - intros [= <- <-]. repeat split; try reflexivity. right. eauto.
  - destruct (network (calls w) req) as [e'|] eqn:E; [|discriminate].
    intros [= <- <-]. simpl. repeat split; try reflexivity. left. auto.
Qed.

(** The loop, when every pool is built: one new pool per URL, in the
    order of the URLs, with handles that follow each other. *)
Lemma create_pool_list_return (urls : list string)
    (settings : PostgresSettings) (con_init : nat)
    (kwargs : gmap string pyval) (pool_list hs : list nat) (w w' : world) :
  create_pool_list network urls settings con_init kwargs pool_list w
  = (Return hs, w') ->
  hs = pool_list ++ seq (length (pools w)) (length urls)
  /\ pools w'
     = pools w
       ++ map (fun u => open_pool (request_for settings con_init kwargs u))
              urls
  /\ calls w'
     = calls w
       ++ map (fun u => CreatePool (request_for settings con_init kwargs u))
              urls
  /\ factories w' = factories w
  /\ app_state w' = app_state w
  /\ env_settings w' = env_settings w.
Proof.
  revert pool_list w.
  induction urls as [|u urls IH]; intros pool_list w; simpl.
  - unfold ret. intros [= <- <-]. rewrite !app_nil_r.
    repeat split; reflexivity.
  - unfold bind.
    destruct (create_pool_b network _ w) as [[h|e] w1] eqn:E;
      [|discriminate].
    apply create_pool_b_return in E
      as (_ & _ & -> & Hp & Hc & Hf & Ha & He).
    intros H. apply IH in H as (-> & Hp' & Hc' & Hf' & Ha' & He').
    rewrite Hp', Hc', Hf', Ha', He', Hp, Hc, Hf, Ha, He.
    rewrite length_app, <- !app_assoc. simpl.
    replace (length (pools w) + 1) with (S (length (pools w))) by lia.
    repeat split; reflexivity.
Qed.

(** The loop, whatever its outcome: it opens pools and closes none,
    and leaves [app.state] alone. *)
Lemma create_pool_list_frame (urls : list string)
    (settings : PostgresSettings) (con_init : nat)
    (kwargs : gmap string pyval) (pool_list : list nat) (w w' : world)
    (r : result (list nat)) :
  create_pool_list network urls settings con_init kwargs pool_list w
  = (r, w') ->
  factories w' = factories w
  /\ app_state w' = app_state w
  /\ env_settings w' = env_settings w
  /\ exists done,
       pools w' = pools w ++ map open_pool done
       /\ exists new, calls w' = calls w ++ map CreatePool new.
Proof.
  revert pool_list w.
  induction urls as [|u urls IH]; intros pool_list w; simpl.
  - unfold ret. intros [= <- <-]. repeat split.
    exists []. rewrite app_nil_r. split; [reflexivity|].
    exists []. by rewrite app_nil_r.
  - unfold bind.
    destruct (create_pool_b network _ w) as [[h|e] w1] eqn:E.
    + apply create_pool_b_return in E
        as (_ & _ & -> & Hp & Hc & Hf & Ha & He).
      intros H. apply IH in H
        as (Hf' & Ha' & He' & done & Hp' & new & Hc').
      rewrite Hf', Ha', He', Hp', Hc', Hp, Hc, Hf, Ha, He.
      repeat split.
      exists (request_for settings con_init kwargs u :: done).
      rewrite <- app_assoc. split; [reflexivity|].
      exists (request_for settings con_init kwargs u :: new).
      by rewrite <- app_assoc.
    + intros [= <- <-].
      apply create_pool_b_raise in E as (Hp & Hf & Ha & He & Hwhy).
      rewrite Hp, Hf, Ha, He. repeat split.
      exists []. rewrite app_nil_r. split; [reflexivity|].
      destruct Hwhy as [(_ & _ & ->) | (k & _ & _ & ->)].
      * by exists [request_for settings con_init kwargs u].
      * exists []. by rewrite app_nil_r.
Qed.

(** [connect_to_db], step by step. *)
Lemma connect_to_db_unfold
    (settings : option PostgresSettings)
    (multi : option MultiPostgresSettings)
    (schemas_arg files_arg : option (list string))
    (kwargs : gmap string pyval) (w : world) :
  connect_to_db network settings multi schemas_arg files_arg kwargs w
  = let s := effective_settings settings w in
    let con_init := length (factories w) in
    let w0 :=
      {| factories :=
           factories w ++ [__init__ schemas_arg files_arg];
         pools := pools w; app_state := app_state w;
         env_settings := env_settings w; calls := calls w |} in
    match create_pool_b network
            (request_for s con_init kwargs (database_url s)) w0 with
    | (Raise e, w1) => (Raise e, w1)
    | (Return h, w1) =>
        let w2 :=
          {| factories := factories w1; pools := pools w1;
             app_state := <["pool" := VPool h]> (app_state w1);
             env_settings := env_settings w1; calls := calls w1 |} in
        if bool_decide (0 < length (secondary_urls multi)) then
          match create_pool_list network (secondary_urls multi)
                  s con_init kwargs [] w2 with
          | (Raise e, w3) => (Raise e, w3)
          | (Return hs, w3) =>
              (Return tt,
               {| factories := factories w3; pools := pools w3;
                  app_state :=
                    <["pool_list" := VPoolList hs]> (app_state w3);
                  env_settings := env_settings w3; calls := calls w3 |})
          end
        else (Return tt, w2)
    end.
Proof.
  unfold connect_to_db, bind, effective_settings.
  assert (Hs : (match settings with
                | Some s => ret s
                | None => default_settings
                end) w
               = (Return match settings with
                         | Some s => s
                         | None => env_settings w
                         end, w)) by (by destruct settings).
  rewrite Hs. unfold new_connection_factory. cbv zeta.
  destruct (create_pool_b network _ _) as [[h|e] w1]; [|reflexivity].
  unfold set_attr at 1.
  destruct multi as [[urls]|]; simpl.
  - destruct (bool_decide (0 < length urls)); [|reflexivity].
    destruct (create_pool_list network _ _ _ _ _ _) as [[hs|e] w3];
      reflexivity.
  - reflexivity.
Qed.

(** Whatever its outcome, [connect_to_db] only asks for pools: it adds
    open pools to the table and closes none. *)
Lemma connect_to_db_never_closes
    (settings : option PostgresSettings)
    (multi : option MultiPostgresSettings)
    (schemas_arg files_arg : option (list string))
    (kwargs : gmap string pyval) (w w' : world) (r : result unit) :
  connect_to_db network settings multi schemas_arg files_arg kwargs w
  = (r, w') ->
  (exists requests, calls w' = calls w ++ map CreatePool requests)
  /\ (exists opened, pools w' = pools w ++ map open_pool opened).
Proof.
  rewrite connect_to_db_unfold. cbv zeta.
  destruct (create_pool_b network _ _) as [[h|e] w1] eqn:E1.
  - apply create_pool_b_return in E1
      as (_ & _ & -> & Hp1 & Hc1 & _).
    simpl in Hp1, Hc1.
    destruct (bool_decide _).
    + destruct (create_pool_list network _ _ _ _ _ _) as [r3 w3] eqn:E3.
      apply create_pool_list_frame in E3
        as (_ & _ & _ & done & Hp3 & new & Hc3).
      simpl in Hp3, Hc3. rewrite Hp1 in Hp3. rewrite Hc1 in Hc3.
      rewrite <- app_assoc in Hp3, Hc3.
      destruct r3 as [hs|e]; intros [= <- <-]; simpl; rewrite Hp3, Hc3;
        (split; [by eexists (_ :: new) | by eexists (_ :: done)]).
    + intros [= <- <-]. simpl. rewrite Hp1, Hc1.
      split; [by eexists [_] | by eexists [_]].
  - apply create_pool_b_raise in E1 as (Hp & _ & _ & _ & Hwhy).
    simpl in Hp. intros [= <- <-]. rewrite Hp.
    split; [|exists []; by rewrite app_nil_r].
    destruct Hwhy as [(_ & _ & ->) | (k & _ & _ & ->)]; simpl.
    + by eexists [_].
    + exists []. by rewrite app_nil_r.
Qed.

End PoolFacts.

Section PoolClaims.
Variable network : list pool_call -> pool_request -> option exn.

(** C6: when [connect_to_db] returns for a list of secondary URLs that
    is not empty, the calls it made to the pooling primitive are the
    request for the primary URL followed by one request per secondary
    URL, in the order of the list.  Every request carries the sizes of
    the settings and the one factory object made at the start of the
    call.  One pool was opened per request, and [app.state.pool_list]
    holds the handles of the secondary pools in the order of their
    URLs. *)
Theorem connect_to_db_secondary_pools
    (settings : option PostgresSettings) (urls : list string)
    (schemas_arg files_arg : option (list string))
    (kwargs : gmap string pyval) (w w' : world) :
  urls <> [] ->
  connect_to_db network settings
    (Some {| database_url_list := urls |}) schemas_arg files_arg kwargs w
  = (Return tt, w') ->
  let s := effective_settings settings w in
  let con_init := length (factories w) in
  let primary := request_for s con_init kwargs (database_url s) in
  let secondary u :=
    {| req_dsn := u;
       req_min_size := req_min_size primary;
       req_max_size := req_max_size primary;
       req_max_queries := req_max_queries primary;
       req_max_inactive_connection_lifetime :=
         req_max_inactive_connection_lifetime primary;
       req_init := req_init primary;
       req_kwargs := req_kwargs primary |} in
  factories w'
  = factories w ++ [__init__ schemas_arg files_arg]
  /\ req_init primary = length (factories w)
  /\ calls w'
     = calls w ++ CreatePool primary
                  :: map (fun u => CreatePool (secondary u)) urls
  /\ pools w'
     = pools w ++ open_pool primary
                  :: map (fun u => open_pool (secondary u)) urls
  /\ app_state w'
     = <["pool_list" :=
           VPoolList (seq (S (length (pools w))) (length urls))]>
         (<["pool" := VPool (length (pools w))]> (app_state w))
  /\ (forall i u,
        urls !! i = Some u ->
        seq (S (length (pools w))) (length urls) !! i
        = Some (S (length (pools w)) + i)
        /\ pools w' !! (S (length (pools w)) + i)
           = Some (open_pool (secondary u))).
Proof.
  intros Hne H. rewrite connect_to_db_unfold in H. cbv zeta in H.
  destruct (create_pool_b network _ _) as [[h|e] w1] eqn:E1;
    [|discriminate].
  apply create_pool_b_return in E1
    as (_ & _ & -> & Hp1 & Hc1 & Hf1 & Ha1 & He1).
  simpl in Hp1, Hc1, Hf1, Ha1, He1.
  change (secondary_urls (Some {| database_url_list := urls |}))
    with urls in H.
  rewrite bool_decide_eq_true_2 in H
    by (destruct urls; [done | simpl; lia]).
  destruct (create_pool_list network _ _ _ _ _ _) as [[hs|e] w3] eqn:E3;
    [|discriminate].
  apply create_pool_list_return in E3
    as (-> & Hp3 & Hc3 & Hf3 & Ha3 & He3).
  simpl in Hp3, Hc3, Hf3, Ha3, He3.
  injection H as <-. cbv zeta. simpl.
  rewrite Hf3, Hf1, Hc3, Hc1, Hp3, Hp1, Ha3, Ha1.
  rewrite length_app. simpl.
  replace (length (pools w) + 1) with (S (length (pools w))) by lia.
  rewrite <- !app_assoc. simpl.
  repeat split; try reflexivity.
  - apply lookup_seq_lt. by apply lookup_lt_Some in H.
  - rewrite lookup_app_r by lia.
    replace (S (length (pools w) + i) - length (pools w)) with (S i)
      by lia.
    simpl. rewrite lookup_map, H. reflexivity.
Qed.

(** C9: without secondary URLs, whatever the outcome,
    [app.state.pool_list] is as it was, every pool that existed is as
    it was, and the only calls made to the pooling primitive are
    requests for a pool, none of them closes one.  When the call
    returns, [app.state.pool] names the pool just opened, whose handle
    no earlier pool has, and no other attribute changed; when it
    raises, [app.state] is as it was. *)
Theorem connect_to_db_keeps_pool_list
    (settings : option PostgresSettings)
    (multi : option MultiPostgresSettings)
    (schemas_arg files_arg : option (list string))
    (kwargs : gmap string pyval) (w w' : world) (r : result unit) :
  secondary_urls multi = [] ->
  connect_to_db network settings multi schemas_arg files_arg kwargs w
  = (r, w') ->
  app_state w' !! "pool_list" = app_state w !! "pool_list"
  /\ (forall h p, pools w !! h = Some p -> pools w' !! h = Some p)
  /\ (exists new, calls w' = calls w ++ map CreatePool new)
  /\ (r = Return tt ->
      app_state w' = <["pool" := VPool (length (pools w))]> (app_state w)
      /\ pools w !! length (pools w) = None
      /\ exists req, pools w' = pools w ++ [open_pool req]
                     /\ req_dsn req
                        = database_url (effective_settings settings w))
  /\ (forall e, r = Raise e -> app_state w' = app_state w).
Proof.
  intros Hurls H. rewrite connect_to_db_unfold in H. cbv zeta in H.
  rewrite Hurls in H. simpl in H.
  destruct (create_pool_b network _ _) as [[h|e] w1] eqn:E1.
  - apply create_pool_b_return in E1
      as (_ & _ & -> & Hp1 & Hc1 & Hf1 & Ha1 & He1).
    simpl in Hp1, Hc1, Hf1, Ha1, He1.
    injection H as <- <-. simpl. rewrite Hp1, Hc1, Ha1.
    split; [by rewrite lookup_insert_ne|].
    split; [intros h p Hh; by apply lookup_app_l_Some|].
    split; [by eexists [_]|].
    split; [|discriminate].
    intros _. split; [reflexivity|].
    split; [by apply lookup_ge_None|].
    eexists. split; reflexivity.
  - apply create_pool_b_raise in E1 as (Hp & Hf & Ha & He & Hwhy).
    simpl in Hp, Ha. injection H as <- <-. rewrite Hp, Ha.
    split; [reflexivity|]. split; [auto|].
    split; [|split; [discriminate | reflexivity]].
    destruct Hwhy as [(_ & _ & ->) | (k & _ & _ & ->)]; simpl.
    + by eexists [_].
    + exists []. by rewrite app_nil_r.
Qed.

(** The loop stops at the first URL for which no pool can be built. *)
Lemma create_pool_list_fails (done : list string) (failing : string)
    (rest : list string) (settings : PostgresSettings) (con_init : nat)
    (kwargs : gmap string pyval) (pool_list : list nat) (w : world)
    (e : exn) :
  let req := request_for settings con_init kwargs in
  repeated_keyword kwargs = None ->
  (forall k u,
      done !! k = Some u ->
      network (calls w ++ map (fun u => CreatePool (req u)) (take k done))
              (req u) = None) ->
  network (calls w ++ map (fun u => CreatePool (req u)) done)
          (req failing) = Some e ->
  exists w',
    create_pool_list network (done ++ failing :: rest)
      settings con_init kwargs pool_list w = (Raise e, w')
    /\ pools w' = pools w ++ map (fun u => open_pool (req u)) done
    /\ calls w'
       = calls w ++ map (fun u => CreatePool (req u)) (done ++ [failing])
    /\ factories w' = factories w
    /\ app_state w' = app_state w
    /\ env_settings w' = env_settings w.
Proof.
  intros req Hkw. revert pool_list w.
  induction done as [|u done IH]; intros pool_list w Hok Hfail.
  - simpl in Hfail |- *. rewrite app_nil_r in Hfail.
    unfold bind, create_pool_b. simpl. fold req. rewrite Hkw, Hfail.
    eexists. split; [reflexivity|]. simpl. rewrite app_nil_r.
    repeat split; reflexivity.
  - pose proof (Hok 0 u eq_refl) as H0. simpl in H0.
    rewrite app_nil_r in H0.
    simpl. unfold bind at 1, create_pool_b at 1. simpl. fold req.
    rewrite Hkw, H0.
    edestruct (IH (pool_list ++ [length (pools w)])) as (w' & Hrun & Hp
      & Hc & Hf & Ha & He); [| |rewrite Hrun].
    + intros k u' Hk. simpl. rewrite <- app_assoc.
      exact (Hok (S k) u' Hk).
    + simpl. rewrite <- app_assoc. exact Hfail.
    + exists w'. split; [reflexivity|].
      rewrite Hp, Hc, Hf, Ha, He. simpl. rewrite <- !app_assoc.
      repeat split; reflexivity.
Qed.

(** C1, as amended: when the primary pool is built, the pools of the
    first secondary URLs are built and the next one cannot be built,
    [connect_to_db] raises the exception of that failure.  The
    primary pool is not closed: it is open in the pool table and
    [app.state.pool] names it; the secondary pools built so far are
    open too, no call closed a pool, and no other attribute of
    [app.state] changed. *)
Theorem connect_to_db_secondary_failure
    (settings : option PostgresSettings)
    (done : list string) (failing : string) (rest : list string)
    (schemas_arg files_arg : option (list string))
    (kwargs : gmap string pyval) (w : world) (e : exn) :
  let s := effective_settings settings w in
  let req := request_for s (length (factories w)) kwargs in
  let primary := req (database_url s) in
  repeated_keyword kwargs = None ->
  network (calls w) primary = None ->
  (forall k u,
      done !! k = Some u ->
      network (calls w ++ CreatePool primary
                 :: map (fun u => CreatePool (req u)) (take k done))
              (req u) = None) ->
  network (calls w ++ CreatePool primary
             :: map (fun u => CreatePool (req u)) done)
          (req failing) = Some e ->
  exists w',
    connect_to_db network settings
      (Some {| database_url_list := done ++ failing :: rest |})
      schemas_arg files_arg kwargs w = (Raise e, w')
    /\ app_state w' = <["pool" := VPool (length (pools w))]> (app_state w)
    /\ pools w' !! length (pools w) = Some (open_pool primary)
    /\ pools w'
       = pools w ++ open_pool primary
                    :: map (fun u => open_pool (req u)) done
    /\ calls w'
       = calls w ++ CreatePool primary
                    :: map (fun u => CreatePool (req u))
                           (done ++ [failing]).
Proof.
  intros s req primary Hkw Hprimary Hok Hfail.
  rewrite connect_to_db_unfold. cbv zeta. fold s. fold req. fold primary.
  unfold create_pool_b at 1. simpl req_kwargs. simpl calls.
  rewrite Hkw, Hprimary.
  change (secondary_urls
            (Some {| database_url_list := done ++ failing :: rest |}))
    with (done ++ failing :: rest).
  rewrite bool_decide_eq_true_2 by (rewrite length_app; simpl; lia).
  edestruct (create_pool_list_fails done failing rest s
               (length (factories w)) kwargs [])
    as (w' & Hrun & Hp & Hc & Hf & Ha & He);
    [exact Hkw | | | rewrite Hrun].
  - intros k u Hk. simpl. rewrite <- app_assoc. exact (Hok k u Hk).
  - simpl. rewrite <- app_assoc. exact Hfail.
  - exists w'. split; [reflexivity|].
    rewrite Ha, Hp, Hc. simpl. rewrite <- !app_assoc. simpl.
    split; [reflexivity|].
    split; [by rewrite list_lookup_middle|].
    split; reflexivity.
Qed.

(** C7: [close_db_connection] leaves every attribute of [app.state]
    as it was, [pool_list] among them.  When [app.state.pool] names a
    pool, the call returns, the one call it makes to the pooling
    primitive closes that pool, and the pool table changes at that
    handle only.  Every pool that [app.state.pool] does not name is as
    it was; when [app.state.pool] names no pool the call raises and
    changes nothing. *)
Theorem close_db_connection_primary_only (w w' : world) (r : result unit) :
  close_db_connection w = (r, w') ->
  app_state w' = app_state w
  /\ factories w' = factories w
  /\ (forall h,
        app_state w !! "pool" = Some (VPool h) ->
        r = Return tt
        /\ calls w' = calls w ++ [ClosePool h]
        /\ pools w' = alter closed_pool h (pools w)
        /\ pools w' !! h = closed_pool <$> pools w !! h)
  /\ (forall h',
        app_state w !! "pool" <> Some (VPool h') ->
        pools w' !! h' = pools w !! h')
  /\ ((forall h, app_state w !! "pool" <> Some (VPool h)) ->
      w' = w /\ exists attr, r = Raise (AttributeError attr)).
Proof.
  unfold close_db_connection, bind, get_attr.
  destruct (app_state w !! "pool") as [[h|hs|tag]|] eqn:E;
    simpl; intros [= <- <-]; simpl.
  - split; [reflexivity|]. split; [reflexivity|]. split.
    + intros h0 [= <-]. split; [reflexivity|]. split; [reflexivity|].
      split; [reflexivity|]. apply list_lookup_alter_eq.
    + split.
      * intros h' Hne. apply list_lookup_alter_ne. congruence.
      * intros Hnone. exfalso. by apply (Hnone h).
  - repeat split; try done. eauto.
  - repeat split; try done. eauto.
  - repeat split; try done. eauto.
Qed.

End PoolClaims.

(** C1, as first stated, fails: with a primary URL and two secondary
    URLs of which the second cannot be reached, [connect_to_db] raises,
    and afterwards [app.state.pool] still names the primary pool, that
    pool is open, and no pool was closed. *)
Lemma connect_to_db_leaves_primary_open :
  let run :=
    connect_to_db demo_network None
      (Some {| database_url_list :=
                 ["postgresql://s1/db"; "postgresql://down/db"] |})
      None None ∅ demo_world in
  fst run = Raise unreachable
  /\ app_state (snd run) !! "pool" = Some (VPool 0)
  /\ pool_closed <$> pools (snd run) !! 0 = Some false
  /\ app_state (snd run) !! "pool_list" = None
  /\ Forall (fun c => forall h, c <> ClosePool h) (calls (snd run)).
Proof.
  cbv zeta. split; [vm_compute; reflexivity|].
  split; [vm_compute; reflexivity|]. split; [vm_compute; reflexivity|].
  split; [vm_compute; reflexivity|].
  vm_compute. repeat constructor; discriminate.
Defined.

Lemma connect_to_db_secondary_failure_witness :
  exists w',
    connect_to_db demo_network None
      (Some {| database_url_list :=
                 ["postgresql://s1/db"] ++ "postgresql://down/db" :: [] |})
      None None ∅ demo_world = (Raise unreachable, w')
    /\ app_state w' !! "pool" = Some (VPool 0)
    /\ pool_closed <$> pools w' !! 0 = Some false.
Proof.
  destruct (connect_to_db_secondary_failure demo_network None
              ["postgresql://s1/db"] "postgresql://down/db" []
              None None ∅ demo_world unreachable)
    as (w' & Hrun & Ha & Hp & _).
  - vm_compute. reflexivity.
  - reflexivity.
  - intros [|[|k]] u Hk; try discriminate Hk.
    injection Hk as <-. reflexivity.
  - reflexivity.
  - exists w'. split; [exact Hrun|]. rewrite Ha.
    split; [apply lookup_insert_eq|].
    change 0 with (length (pools demo_world)). rewrite Hp. reflexivity.
Defined.

Lemma connect_to_db_secondary_pools_witness :
  let run :=
    connect_to_db demo_network None
      (Some {| database_url_list :=
                 ["postgresql://s1/db"; "postgresql://s2/db"] |})
      (Some ["public"]) None ∅ demo_world in
  run = (Return tt, snd run)
  /\ app_state (snd run) !! "pool_list" = Some (VPoolList [1; 2])
  /\ map (fun p => req_dsn (pool_args p)) (pools (snd run))
     = ["postgresql://primary/db"; "postgresql://s1/db";
        "postgresql://s2/db"]
  /\ map (fun p => req_init (pool_args p)) (pools (snd run)) = [0; 0; 0].
Proof.
  intros run.
  assert (H : run = (Return tt, snd run)) by (vm_compute; reflexivity).
  split; [exact H|].
  destruct (connect_to_db_secondary_pools demo_network None
              ["postgresql://s1/db"; "postgresql://s2/db"]
              (Some ["public"]) None ∅ demo_world (snd run))
    as (_ & _ & _ & Hp & Ha & _); [discriminate | exact H |].
  rewrite Ha, Hp.
  split; [apply lookup_insert_eq|]. split; reflexivity.
Defined.

Lemma connect_to_db_keeps_pool_list_witness :
  let w :=
    snd (connect_to_db demo_network None
           (Some {| database_url_list :=
                      ["postgresql://s1/db"; "postgresql://s2/db"] |})
           None None ∅ demo_world) in
  let run := connect_to_db demo_network None None None None ∅ w in
  fst run = Return tt
  /\ app_state w !! "pool_list" = Some (VPoolList [1; 2])
  /\ app_state (snd run) !! "pool_list" = Some (VPoolList [1; 2])
  /\ app_state w !! "pool" = Some (VPool 0)
  /\ app_state (snd run) !! "pool" = Some (VPool 3).
Proof.
  intros w run.
  assert (Hw : app_state w !! "pool_list" = Some (VPoolList [1; 2]))
    by (vm_compute; reflexivity).
  assert (H : run = (Return tt, snd run)) by (vm_compute; reflexivity).
  destruct (connect_to_db_keeps_pool_list demo_network None None None None
              ∅ w (snd run) (Return tt) eq_refl H)
    as (Hlist & _ & _ & Hret & _).
  destruct (Hret eq_refl) as (Ha & _).
  split; [by rewrite H|]. split; [exact Hw|].
  split; [by rewrite Hlist|].
  split; [vm_compute; reflexivity|].
  rewrite Ha. apply lookup_insert_eq.
Defined.

Lemma close_db_connection_primary_only_witness :
  let w :=
    snd (connect_to_db demo_network None
           (Some {| database_url_list :=
                      ["postgresql://s1/db"; "postgresql://s2/db"] |})
           None None ∅ demo_world) in
  let run := close_db_connection w in
  fst run = Return tt
  /\ app_state (snd run) !! "pool_list" = Some (VPoolList [1; 2])
  /\ map pool_closed (pools (snd run)) = [true; false; false]
  /\ calls (snd run) = calls w ++ [ClosePool 0].
Proof.
  intros w run.
  assert (H : run = (fst run, snd run)) by (by destruct run).
  assert (Hpool : app_state w !! "pool" = Some (VPool 0))
    by (vm_compute; reflexivity).
  destruct (close_db_connection_primary_only w (snd run) (fst run) H)
    as (Ha & _ & Hclose & _).
  destruct (Hclose 0 Hpool) as (Hr & Hc & Hp & _).
  split; [exact Hr|]. rewrite Ha, Hp.
  split; [vm_compute; reflexivity|].
  split; [vm_compute; reflexivity | exact Hc].
Defined.

(** * Further properties of [initialize] *)

Section InitializeRuns.
Context {session : Type}.
Variable server : conn_op -> session -> option exn * session.

(** Steps that read no missing file, sent to a server that accepts
    their operations, all run. *)
Lemma run_script_accepted (steps : list step) (st : istate session) :
  (forall op s, In (Call op) steps -> fst (server op s) = None) ->
  Forall (fun s => forall e, s <> Fail e) steps ->
  exists st', run_script server steps st = (Return tt, st').
Proof.
  unfold run_script. revert st.
  induction steps as [|s steps IH]; intros st Hacc Hread; simpl.
  - by exists st.
  - apply Forall_cons in Hread as [Hs Hread]. unfold bind.
    assert (Hrest : forall op s0,
               In (Call op) steps -> fst (server op s0) = None)
      by (intros op s0 Hin; apply Hacc; by right).
    destruct s as [op|msg|e]; simpl.
    + unfold conn_call. rewrite (Hacc op (conn_session st)) by (by left).
      apply IH; assumption.
    + apply IH; assumption.
    + exfalso. by eapply Hs.
Qed.

(** They stop at the first step whose file is missing, with nothing sent
    for it. *)
Lemma run_script_stops (before after : list step) (e : exn)
    (st : istate session) :
  (forall op s, In (Call op) before -> fst (server op s) = None) ->
  Forall (fun s => forall e, s <> Fail e) before ->
  exists st',
    run_script server (before ++ Fail e :: after) st = (Raise e, st')
    /\ conn_trace st' = conn_trace st ++ calls_of before.
Proof.
  intros Hacc Hread.
  destruct (run_script_accepted before st Hacc Hread) as [st_mid Hmid].
  exists st_mid. unfold run_script in *. rewrite for_each_app.
  unfold bind. rewrite Hmid. split; [reflexivity|].
  by apply run_script_return in Hmid as [-> _].
Qed.

Lemma file_steps_texts (fs : gmap string string) (paths texts : list string) :
  Forall2 (fun path text => fs !! path = Some text) paths texts ->
  map (file_step fs) paths = map (fun text => Call (Execute text)) texts.
Proof.
  induction 1 as [|path text paths texts Hp _ IH]; simpl; [reflexivity|].
  unfold file_step at 1. by rewrite Hp, IH.
Qed.

Lemma calls_of_texts (texts : list string) :
  calls_of (map (fun text => Call (Execute text)) texts) = map Execute texts.
Proof.
  induction texts as [|t texts IH]; [reflexivity|].
  simpl map. rewrite calls_of_call. by rewrite IH.
Qed.

Lemma texts_not_fail (texts : list string) :
  Forall (fun s => forall e, s <> Fail e)
         (map (fun text => Call (Execute text)) texts).
Proof.
  induction texts as [|t texts IH]; simpl; constructor; [discriminate|done].
Qed.

(** X1: when every file can be read and the server accepts every
    operation of the script, [initialize] returns: it has run the whole script,
    logged its one line and left the factory and the files alone. *)
Theorem initialize_returns (st : istate session) :
  (forall path,
      In path (user_sql_files (self st) ++ [DB_CATALOG_FILE]) ->
      is_Some (files st !! path)) ->
  (forall op s,
      In (Call op) (script (self st) (files st)) ->
      fst (server op s) = None) ->
  exists st',
    initialize server st = (Return tt, st')
    /\ conn_trace st' = conn_trace st ++ calls_of (script (self st) (files st))
    /\ length (conn_trace st')
       = length (conn_trace st) + 4 + length (user_sql_files (self st))
    /\ self st' = self st
    /\ files st' = files st.
Proof.
  intros Hfiles Hacc.
  assert (Hpaths : forall paths,
             (forall p, In p paths -> is_Some (files st !! p)) ->
             exists texts,
               Forall2 (fun p t => files st !! p = Some t) paths texts).
  { induction paths as [|p paths IH]; intros Hp; [by exists []|].
    destruct (Hp p) as [t Ht]; [by left|].
    destruct IH as [texts Htexts]; [intros q Hq; apply Hp; by right|].
    exists (t :: texts). by constructor. }
  destruct (Hpaths _ Hfiles) as [all Hall].
  apply Forall2_app_inv_l in Hall as (texts & cat & Htexts & Hcat & ->).
  apply Forall2_cons_inv_l in Hcat as (catalog & nil & Hcatalog & Hnil & ->).
  apply Forall2_nil_inv_l in Hnil as ->.
  assert (Hscript : script (self st) (files st)
                    = [Call json_codec; Call jsonb_codec;
                       Log (debug_message
                              (join "," ("pg_temp" :: schemas (self st))));
                       Call (search_path_op (self st))]
                      ++ map (fun text => Call (Execute text))
                             (texts ++ [catalog])).
  { unfold script. rewrite (file_steps_texts _ _ _ Htexts), map_app.
    simpl. unfold file_step. by rewrite Hcatalog. }
  destruct (run_script_accepted (script (self st) (files st)) st Hacc)
    as [st' Hrun].
  { rewrite Hscript. apply Forall_app. split; [|apply texts_not_fail].
    repeat constructor; discriminate. }
  exists st'. rewrite initialize_script. split; [exact Hrun|].
  pose proof (run_script_frame server _ _ _ _ Hrun) as [Hself Hf].
  apply run_script_return in Hrun as [Htrace _].
  split; [exact Htrace|]. split; [|by split].
  rewrite Htrace, Hscript, calls_of_app, calls_of_texts.
  rewrite !length_app, length_map, length_app. simpl.
  rewrite (Forall2_length _ _ _ Htexts). lia.
Qed.

(** X2: the files are read when their turn comes.  When the first files of
    the list can be read, the next one cannot and the server accepts
    what it is sent, [initialize] runs the codecs, the search-path
    statement and those first files, then raises [FileNotFoundError]
    for the missing file: nothing is sent for it, nor for the files
    after it, nor for the catalog. *)
Theorem initialize_missing_user_file (st : istate session)
    (found : list string) (missing : string) (later : list string)
    (texts : list string) :
  user_sql_files (self st) = found ++ missing :: later ->
  Forall2 (fun path text => files st !! path = Some text) found texts ->
  files st !! missing = None ->
  (forall op s,
      In op ([json_codec; jsonb_codec; search_path_op (self st)]
             ++ map Execute texts) ->
      fst (server op s) = None) ->
  exists st',
    initialize server st = (Raise (FileNotFoundError missing), st')
    /\ conn_trace st'
       = conn_trace st
         ++ [json_codec; jsonb_codec; search_path_op (self st)]
         ++ map Execute texts.
Proof.
  intros Hlist Hfound Hmissing Hacc.
  rewrite initialize_script.
  assert (Hscript : script (self st) (files st)
    = ([Call json_codec; Call jsonb_codec;
        Log (debug_message (join "," ("pg_temp" :: schemas (self st))));
        Call (search_path_op (self st))]
       ++ map (fun text => Call (Execute text)) texts)
      ++ Fail (FileNotFoundError missing)
         :: (map (file_step (files st)) later
             ++ [file_step (files st) DB_CATALOG_FILE])).
  { unfold script. rewrite Hlist, map_app, (file_steps_texts _ _ _ Hfound).
    simpl. unfold file_step at 1. rewrite Hmissing.
    by rewrite <- !app_assoc. }
  rewrite Hscript.
  edestruct (run_script_stops) as (st' & Hrun & Htrace);
    [| |exists st'; split; [exact Hrun|]].
  - intros op s Hin. apply Hacc.
    apply in_app_or in Hin as [Hin|Hin].
    + apply in_or_app. left. simpl in Hin |- *.
      destruct Hin as [[= <-]|[[= <-]|[[=]|[[= <-]|[]]]]]; auto.
    + apply in_or_app. right. apply in_map_iff in Hin as (t & [= <-] & Ht).
      by apply in_map.
  - apply Forall_app. split; [|apply texts_not_fail].
    repeat constructor; discriminate.
  - rewrite Htrace, calls_of_app, calls_of_texts. reflexivity.
Qed.

(** X3: the bundled catalog file is read last.  When it is missing, every
    user file can be read and the server accepts what it is sent,
    [initialize] runs every user resource and only then raises
    [FileNotFoundError] for the catalog file. *)
Theorem initialize_missing_catalog (st : istate session)
    (texts : list string) :
  Forall2 (fun path text => files st !! path = Some text)
          (user_sql_files (self st)) texts ->
  files st !! DB_CATALOG_FILE = None ->
  (forall op s,
      In op ([json_codec; jsonb_codec; search_path_op (self st)]
             ++ map Execute texts) ->
      fst (server op s) = None) ->
  exists st',
    initialize server st = (Raise (FileNotFoundError DB_CATALOG_FILE), st')
    /\ conn_trace st'
       = conn_trace st
         ++ [json_codec; jsonb_codec; search_path_op (self st)]
         ++ map Execute texts.
Proof.
  intros Hfound Hmissing Hacc.
  rewrite initialize_script.
  assert (Hscript : script (self st) (files st)
    = ([Call json_codec; Call jsonb_codec;
        Log (debug_message (join "," ("pg_temp" :: schemas (self st))));
        Call (search_path_op (self st))]
       ++ map (fun text => Call (Execute text)) texts)
      ++ Fail (FileNotFoundError DB_CATALOG_FILE) :: []).
  { unfold script. rewrite (file_steps_texts _ _ _ Hfound).
    unfold file_step. rewrite Hmissing. by rewrite <- !app_assoc. }
  rewrite Hscript.
  edestruct (run_script_stops) as (st' & Hrun & Htrace);
    [| |exists st'; split; [exact Hrun|]].
  - intros op s Hin. apply Hacc.
    apply in_app_or in Hin as [Hin|Hin].
    + apply in_or_app. left. simpl in Hin |- *.
      destruct Hin as [[= <-]|[[= <-]|[[=]|[[= <-]|[]]]]]; auto.
    + apply in_or_app. right. apply in_map_iff in Hin as (t & [= <-] & Ht).
      by apply in_map.
  - apply Forall_app. split; [|apply texts_not_fail].
    repeat constructor; discriminate.
  - rewrite Htrace, calls_of_app, calls_of_texts. reflexivity.
Qed.

End InitializeRuns.

Section InitializeLog.
Context {session : Type}.
Variable server : conn_op -> session -> option exn * session.

Lemma run_script_no_log (steps : list step) (st st' : istate session)
    (r : result unit) :
  Forall (fun s => forall msg, s <> Log msg) steps ->
  run_script server steps st = (r, st') ->
  log st' = log st.
Proof.
  unfold run_script. revert st.
  induction steps as [|s steps IH]; intros st Hno; simpl.
  - unfold ret. by intros [= <- <-].
  - apply Forall_cons in Hno as [Hs Hno]. unfold bind.
    destruct (run_step server s st) as [[[]|e] st1] eqn:E.
    + intros H. rewrite (IH _ Hno H).
      destruct s as [op|msg|e]; simpl in E.
      * unfold conn_call in E.
        destruct (fst (server op (conn_session st)));
          simplify_eq; reflexivity.
      * exfalso. by eapply Hs.
      * discriminate.
    + intros [= <- <-]. destruct s as [op|msg|e1]; simpl in E.
      * unfold conn_call in E.
        destruct (fst (server op (conn_session st)));
          simplify_eq; reflexivity.
      * discriminate.
      * unfold raise in E. simplify_eq. reflexivity.
Qed.

Lemma file_steps_no_log (fs : gmap string string) (paths : list string) :
  Forall (fun s => forall msg, s <> Log msg) (map (file_step fs) paths).
Proof.
  induction paths as [|p paths IH]; simpl; constructor; [|exact IH].
  unfold file_step. destruct (fs !! p); discriminate.
Qed.

(** X4: [initialize] writes one line to the log, naming [pg_temp] and the
    schemas, exactly when the server accepts both codec registrations;
    the line is written before the search-path statement is sent, so it
    is there whether or not that statement and the resources succeed.
    When a codec registration is refused nothing is logged. *)
Theorem initialize_log (st : istate session) :
  log (snd (initialize server st))
  = match fst (server json_codec (conn_session st)),
          fst (server jsonb_codec
                 (snd (server json_codec (conn_session st)))) with
    | None, None =>
        log st
        ++ [debug_message (join "," ("pg_temp" :: schemas (self st)))]
    | _, _ => log st
    end.
Proof.
  rewrite initialize_script. unfold script, run_script.
  cbn [app for_each run_step]. unfold bind at 1, conn_call at 1.
  destruct (fst (server json_codec (conn_session st))) as [e|];
    [reflexivity|].
  unfold bind at 1, conn_call at 1. cbn [conn_session].
  destruct (fst (server jsonb_codec _)) as [e|]; [reflexivity|].
  unfold bind at 1, logger_debug at 1.
  assert (HF : Forall (fun s => forall msg, s <> Log msg)
                 (Call (search_path_op (self st))
                  :: map (file_step (files st)) (user_sql_files (self st))
                  ++ [file_step (files st) DB_CATALOG_FILE])).
  { constructor; [discriminate|].
    apply Forall_app. split; [apply file_steps_no_log|].
    apply (file_steps_no_log _ [DB_CATALOG_FILE]). }
  match goal with
  | |- log (snd ?run) = _ => destruct run as [r st'] eqn:E
  end.
  exact (run_script_no_log _ _ _ _ HF E).
Qed.

End InitializeLog.

Section StatementFacts.

Lemma length_append (s t : string) :
  String.length (s +:+ t) = String.length s + String.length t.
Proof.
  induction s as [|a s IH]; [reflexivity|].
  rewrite append_cons. simpl. by rewrite IH.
Qed.

Lemma append_inj_r (s1 s2 t : string) : s1 +:+ t = s2 +:+ t -> s1 = s2.
Proof.
  revert s2. induction s1 as [|a s1 IH]; intros [|b s2] H.
  - reflexivity.
  - apply (f_equal String.length) in H.
    rewrite append_empty, append_cons in H. simpl in H.
    rewrite length_append in H. lia.
  - apply (f_equal String.length) in H.
    rewrite append_empty, append_cons in H. simpl in H.
    rewrite length_append in H. lia.
  - rewrite !append_cons in H. injection H as -> H. f_equal. by apply IH.
Qed.

Lemma search_path_sql_inj (s1 s2 : string) :
  search_path_sql s1 = search_path_sql s2 -> s1 = s2.
Proof.
  unfold search_path_sql. intros H.
  apply (inj (String.app search_path_sql_head)) in H.
  by apply append_inj_r in H.
Qed.

(** X5: on schema names without a comma the search-path statement tells the
    lists apart: two factories whose statements are the same have the
    same schemas, in the same order. *)
Theorem search_path_statement_injective (this other : connection_factory) :
  Forall (fun n => has_char comma_char n = false) (schemas this) ->
  Forall (fun n => has_char comma_char n = false) (schemas other) ->
  search_path_op this = search_path_op other ->
  schemas this = schemas other.
Proof.
  intros H1 H2 Hop. unfold search_path_op in Hop.
  apply (f_equal (fun op => match op with
                            | Execute sql => sql
                            | SetTypeCodec _ _ _ _ => EmptyString
                            end)) in Hop.
  cbv beta iota in Hop. apply search_path_sql_inj in Hop as Hsql.
  apply (f_equal (fun j => path_elems (j +:+ "," +:+ EmptyString))) in Hsql.
  rewrite !path_elems_join in Hsql by (constructor; [reflexivity|done]).
  injection Hsql as Hsql. by apply app_inv_tail in Hsql.
Qed.

(** X6: with schema names that hold no single quote, the text between the
    quotes of the statement is one literal, whatever else the names
    hold: it is the joined names followed by a comma, and what follows
    it is the fixed end of the statement. *)
Theorem search_path_literal_intact (this : connection_factory) :
  Forall (fun n => has_char quote_char n = false) (schemas this) ->
  strip_prefix search_path_sql_head
    (search_path_sql (join "," ("pg_temp" :: schemas this)))
  ≫= scan_literal
  = Some (join "," ("pg_temp" :: schemas this) +:+ ",", search_path_sql_rest).
Proof.
  intros Hq. unfold search_path_sql.
  rewrite strip_prefix_append.
  change (scan_literal
            (join "," ("pg_temp" :: schemas this)
             +:+ "," +:+ String quote_char search_path_sql_rest)
          = Some (join "," ("pg_temp" :: schemas this) +:+ ",",
                  search_path_sql_rest)).
  rewrite <- append_assoc.
  apply (scan_literal_plain
           (join "," ("pg_temp" :: schemas this) +:+ ","));
    [|reflexivity].
  rewrite has_char_append, has_char_join; [reflexivity..|].
  constructor; [reflexivity | exact Hq].
Qed.

End StatementFacts.

Section SearchPathText.
Context {session : Type}.
Variable server : conn_op -> session -> option exn * session.
Variable setting_of : session -> string -> string.

(** The server is taken, as above, to evaluate an accepted
    [SELECT set_config('search_path', value, false)] as it reads. *)
Hypothesis server_set_config : forall sql value s s',
  read_set_config sql
  = Some {| sc_name := "search_path"; sc_value := value;
            sc_is_local := false |} ->
  server (Execute sql) s = (None, s') ->
  setting_of s' "search_path" = eval_expr (setting_of s) value.

(** X7: with schema names that hold no single quote (commas and double
    quotes allowed), a successful [initialize] sends a statement that
    reads as a [set_config] of [search_path]; right after it the search
    path is, as a text, the joined names of [pg_temp] and the schemas,
    a comma, and the search path the session had when the statement
    ran. *)
Theorem initialize_search_path_text (st st' : istate session) :
  Forall (fun n => has_char quote_char n = false) (schemas (self st)) ->
  initialize server st = (Return tt, st') ->
  exists st_codecs st_mid,
    register_codecs server st = (Return tt, st_codecs)
    /\ set_search_path server st_codecs = (Return tt, st_mid)
    /\ bind (register_user_sql server) (fun _ => register_catalog server)
            st_mid = (Return tt, st')
    /\ read_set_config
         (search_path_sql (join "," ("pg_temp" :: schemas (self st))))
       = Some {| sc_name := "search_path";
                 sc_value :=
                   EConcat
                     (ELit (join "," ("pg_temp" :: schemas (self st))
                            +:+ ","))
                     (ECurrentSetting "search_path");
                 sc_is_local := false |}
    /\ setting_of (conn_session st_mid) "search_path"
       = join "," ("pg_temp" :: schemas (self st))
         +:+ "," +:+ setting_of (conn_session st_codecs) "search_path".
Proof.
  intros Hq Hinit.
  destruct (initialize_parts _ _ _ Hinit)
    as (st_codecs & st_mid & Hcodecs & Hpath & Hres).
  exists st_codecs, st_mid.
  split; [exact Hcodecs|]. split; [exact Hpath|]. split; [exact Hres|].
  split.
  - apply read_search_path_sql, has_char_join; [reflexivity|].
    by constructor.
  - destruct (register_codecs_frame server setting_of _ _ Hcodecs)
      as (Hself & _).
    rewrite <- Hself in Hq |- *.
    by destruct (set_search_path_text server setting_of server_set_config
                   _ _ Hq Hpath) as (Htext & _).
Qed.

(** X8: [initialize] is not idempotent on a connection.  When the codec
    registrations and the SQL resources leave the search path alone, a
    second run on the session the first run left puts the names before
    the search path once more: the names of the factory are there
    twice, and the search path is not the one the first run left. *)
Theorem initialize_twice_prefixes_twice (st st1 st2 : istate session) :
  Forall (fun n => has_char quote_char n = false) (schemas (self st)) ->
  (forall typename enc dec schema s s',
      server (SetTypeCodec typename enc dec schema) s = (None, s') ->
      setting_of s' "search_path" = setting_of s "search_path") ->
  (forall path text s s',
      In path (user_sql_files (self st) ++ [DB_CATALOG_FILE]) ->
      files st !! path = Some text ->
      server (Execute text) s = (None, s') ->
      setting_of s' "search_path" = setting_of s "search_path") ->
  initialize server st = (Return tt, st1) ->
  initialize server st1 = (Return tt, st2) ->
  let names := join "," ("pg_temp" :: schemas (self st)) in
  setting_of (conn_session st1) "search_path"
  = names +:+ "," +:+ setting_of (conn_session st) "search_path"
  /\ setting_of (conn_session st2) "search_path"
     = names +:+ "," +:+ names +:+ ","
       +:+ setting_of (conn_session st) "search_path"
  /\ setting_of (conn_session st2) "search_path"
     <> setting_of (conn_session st1) "search_path".
Proof.
  intros Hq Hcodec Hkeep H1 H2 names.
  assert (Hrun : forall sta stb,
             self sta = self st -> files sta = files st ->
             initialize server sta = (Return tt, stb) ->
             setting_of (conn_session stb) "search_path"
             = names +:+ "," +:+ setting_of (conn_session sta) "search_path").
  { intros sta stb Hself Hfiles Hinit.
    destruct (initialize_parts _ _ _ Hinit)
      as (st_codecs & st_mid & Hcodecs & Hpath & Hres).
    destruct (register_codecs_frame server setting_of _ _ Hcodecs)
      as (Hself1 & Hfiles1 & Hcframe).
    assert (Hq' : Forall (fun n => has_char quote_char n = false)
                    (schemas (self st_codecs)))
      by (by rewrite Hself1, Hself).
    destruct (set_search_path_text server setting_of server_set_config
                _ _ Hq' Hpath) as (Htext & Hself2 & Hfiles2).
    assert (Hk : forall path text s s',
               In path (user_sql_files (self st_mid) ++ [DB_CATALOG_FILE]) ->
               files st_mid !! path = Some text ->
               server (Execute text) s = (None, s') ->
               setting_of s' "search_path" = setting_of s "search_path").
    { rewrite Hself2, Hself1, Hself, Hfiles2, Hfiles1, Hfiles. exact Hkeep. }
    rewrite (resources_keep_path server setting_of st_mid stb Hk Hres).
    rewrite Htext, (Hcframe Hcodec), Hself1, Hself. reflexivity. }
  pose proof (initialize_frame server _ _ _ H1) as [Hself Hfiles].
  pose proof (Hrun st st1 eq_refl eq_refl H1) as Hp1.
  pose proof (Hrun st1 st2 Hself Hfiles H2) as Hp2.
  split; [exact Hp1|]. split; [by rewrite Hp2, Hp1|].
  rewrite Hp2. intros Heq.
  apply (f_equal String.length) in Heq.
  rewrite !length_append in Heq. simpl in Heq. lia.
Qed.

End SearchPathText.

(** * Further properties of [connect_to_db] and [close_db_connection] *)

Section PoolRuns.
Variable network : list pool_call -> pool_request -> option exn.

(** What a call of [connect_to_db] that returns has done. *)
Lemma connect_to_db_return_state
    (settings : option PostgresSettings)
    (multi : option MultiPostgresSettings)
    (schemas_arg files_arg : option (list string))
    (kwargs : gmap string pyval) (w w' : world) :
  connect_to_db network settings multi schemas_arg files_arg kwargs w
  = (Return tt, w') ->
  let s := effective_settings settings w in
  let req := request_for s (length (factories w)) kwargs in
  pools w'
  = pools w ++ open_pool (req (database_url s))
               :: map (fun u => open_pool (req u)) (secondary_urls multi)
  /\ calls w'
     = calls w ++ CreatePool (req (database_url s))
                  :: map (fun u => CreatePool (req u)) (secondary_urls multi)
  /\ app_state w' !! "pool" = Some (VPool (length (pools w)))
  /\ (secondary_urls multi = [] -> app_state w' = <["pool" :=
        VPool (length (pools w))]> (app_state w))
  /\ (secondary_urls multi <> [] ->
      app_state w' !! "pool_list"
      = Some (VPoolList (seq (S (length (pools w)))
                             (length (secondary_urls multi))))).
Proof.
  intros H. rewrite connect_to_db_unfold in H. cbv zeta in H.
  destruct (create_pool_b network _ _) as [[h|e] w1] eqn:E1;
    [|discriminate].
  apply create_pool_b_return in E1
    as (_ & _ & -> & Hp1 & Hc1 & Hf1 & Ha1 & He1).
  simpl in Hp1, Hc1, Hf1, Ha1, He1. cbv zeta.
  destruct (secondary_urls multi) as [|u urls] eqn:Eurls.
  - simpl in H. injection H as <-. simpl. rewrite Hp1, Hc1, Ha1.
    split; [reflexivity|]. split; [reflexivity|].
    split; [apply lookup_insert_eq|]. split; [reflexivity | done].
  - rewrite bool_decide_eq_true_2 in H by (simpl; lia).
    destruct (create_pool_list network _ _ _ _ _ _) as [[hs|e] w3] eqn:E3;
      [|discriminate].
    apply create_pool_list_return in E3
      as (-> & Hp3 & Hc3 & Hf3 & Ha3 & He3).
    simpl in Hp3, Hc3, Hf3, Ha3, He3.
    injection H as <-. simpl.
    rewrite Hc3, Hc1, Hp3, Hp1, Ha3, Ha1, length_app. simpl.
    replace (length (pools w) + 1) with (S (length (pools w))) by lia.
    rewrite <- !app_assoc. simpl.
    split; [reflexivity|]. split; [reflexivity|].
    split; [rewrite lookup_insert_ne by done; apply lookup_insert_eq|].
    split; [done|]. intros _. apply lookup_insert_eq.
Qed.

(** X9: a keyword that [connect_to_db] writes out itself and that comes
    again in [**kwargs] stops the call at once: it raises [TypeError]
    for such a keyword, no pool is asked for, and the pools and
    [app.state] are as they were. *)
Theorem connect_to_db_repeated_keyword
    (settings : option PostgresSettings)
    (multi : option MultiPostgresSettings)
    (schemas_arg files_arg : option (list string))
    (kwargs : gmap string pyval) (w : world) (k : string) :
  In k explicit_keywords ->
  is_Some (kwargs !! k) ->
  exists k' w',
    connect_to_db network settings multi schemas_arg files_arg kwargs w
    = (Raise (TypeError k'), w')
    /\ In k' explicit_keywords
    /\ is_Some (kwargs !! k')
    /\ calls w' = calls w
    /\ pools w' = pools w
    /\ app_state w' = app_state w.
Proof.
  intros Hk Hsome.
  assert (Hrep : exists k', repeated_keyword kwargs = Some k'
                            /\ In k' explicit_keywords
                            /\ is_Some (kwargs !! k')).
  { unfold repeated_keyword.
    destruct (list_find (fun k0 => is_Some (kwargs !! k0))
                        explicit_keywords) as [[i k']|] eqn:E.
    - exists k'. apply list_find_Some in E as (Hi & HP & _).
      split; [reflexivity|]. split; [|exact HP].
      apply list_elem_of_In. by eapply list_elem_of_lookup_2.
    - exfalso. apply list_find_None in E.
      rewrite Forall_forall in E. apply (E k); [|exact Hsome].
      by apply list_elem_of_In. }
  destruct Hrep as (k' & Hrep & Hin & Hsome').
  rewrite connect_to_db_unfold. cbv zeta.
  unfold create_pool_b. simpl req_kwargs. rewrite Hrep.
  eexists k', _. split; [reflexivity|]. by repeat split.
Qed.

(** X10: when the primary pool cannot be built, [connect_to_db] raises the
    driver's exception after that one request: no secondary URL is
    tried, no pool is added, and [app.state] is as it was, so a pool
    published by an earlier call is still the one [app.state.pool]
    names. *)
Theorem connect_to_db_primary_failure
    (settings : option PostgresSettings)
    (multi : option MultiPostgresSettings)
    (schemas_arg files_arg : option (list string))
    (kwargs : gmap string pyval) (w : world) (e : exn) :
  let s := effective_settings settings w in
  let primary := request_for s (length (factories w)) kwargs
                             (database_url s) in
  repeated_keyword kwargs = None ->
  network (calls w) primary = Some e ->
  exists w',
    connect_to_db network settings multi schemas_arg files_arg kwargs w
    = (Raise e, w')
    /\ calls w' = calls w ++ [CreatePool primary]
    /\ pools w' = pools w
    /\ app_state w' = app_state w.
Proof.
  intros s primary Hkw Hnet.
  rewrite connect_to_db_unfold. cbv zeta. fold s. fold primary.
  unfold create_pool_b. simpl req_kwargs. simpl calls.
  rewrite Hkw, Hnet. eexists. split; [reflexivity|]. by repeat split.
Qed.

(** The loop builds every pool when the driver can. *)
Lemma create_pool_list_succeeds (urls : list string)
    (settings : PostgresSettings) (con_init : nat)
    (kwargs : gmap string pyval) (pool_list : list nat) (w : world) :
  repeated_keyword kwargs = None ->
  (forall history u,
      In u urls ->
      network history (request_for settings con_init kwargs u) = None) ->
  exists hs w',
    create_pool_list network urls settings con_init kwargs pool_list w
    = (Return hs, w').
Proof.
  intros Hkw. revert pool_list w.
  induction urls as [|u urls IH]; intros pool_list w Hnet; simpl.
  - by eexists _, _.
  - unfold bind at 1, create_pool_b at 1. simpl req_kwargs.
    rewrite Hkw, (Hnet _ u) by (by left).
    apply IH. intros history u' Hu'. apply Hnet. by right.
Qed.

(** X11: when [**kwargs] repeats no keyword and the driver can build a pool
    for the primary URL and for every secondary URL, [connect_to_db]
    returns, with [app.state.pool] naming the new primary pool and one
    open pool per URL. *)
Theorem connect_to_db_returns
    (settings : option PostgresSettings)
    (multi : option MultiPostgresSettings)
    (schemas_arg files_arg : option (list string))
    (kwargs : gmap string pyval) (w : world) :
  let s := effective_settings settings w in
  let req := request_for s (length (factories w)) kwargs in
  repeated_keyword kwargs = None ->
  (forall history u,
      In u (database_url s :: secondary_urls multi) ->
      network history (req u) = None) ->
  exists w',
    connect_to_db network settings multi schemas_arg files_arg kwargs w
    = (Return tt, w')
    /\ app_state w' !! "pool" = Some (VPool (length (pools w)))
    /\ pools w'
       = pools w ++ open_pool (req (database_url s))
                    :: map (fun u => open_pool (req u)) (secondary_urls multi).
Proof.
  intros s req Hkw Hnet.
  assert (Hrun : exists w',
             connect_to_db network settings multi schemas_arg files_arg
               kwargs w = (Return tt, w')).
  { rewrite connect_to_db_unfold. cbv zeta. fold s. fold req.
    unfold create_pool_b at 1. simpl req_kwargs.
    rewrite Hkw, (Hnet _ (database_url s)) by (by left).
    destruct (bool_decide _); [|by eexists].
    edestruct (create_pool_list_succeeds (secondary_urls multi) s
                 (length (factories w)) kwargs []) as (hs & w3 & Hloop);
      [exact Hkw | | rewrite Hloop; by eexists].
    intros history u Hu. apply Hnet. by right. }
  destruct Hrun as [w' Hrun]. exists w'. split; [exact Hrun|].
  apply connect_to_db_return_state in Hrun as (Hp & _ & Ha & _).
  by split.
Qed.

(** X12: a second [connect_to_db] does not close what the first one opened:
    [app.state.pool] now names another pool, and every pool the first
    call opened, the one [app.state.pool] named among them, is still
    open in the table, with no call having closed it. *)
Theorem connect_to_db_twice_leaks
    (settings1 settings2 : option PostgresSettings)
    (multi1 multi2 : option MultiPostgresSettings)
    (schemas1 files1 schemas2 files2 : option (list string))
    (kwargs1 kwargs2 : gmap string pyval) (w w1 w2 : world) :
  connect_to_db network settings1 multi1 schemas1 files1 kwargs1 w
  = (Return tt, w1) ->
  connect_to_db network settings2 multi2 schemas2 files2 kwargs2 w1
  = (Return tt, w2) ->
  app_state w1 !! "pool" = Some (VPool (length (pools w)))
  /\ app_state w2 !! "pool" = Some (VPool (length (pools w1)))
  /\ length (pools w) < length (pools w1)
  /\ (forall h,
        length (pools w) <= h < length (pools w1) ->
        pool_closed <$> pools w2 !! h = Some false)
  /\ exists requests, calls w2 = calls w ++ map CreatePool requests.
Proof.
  intros H1 H2.
  pose proof (connect_to_db_never_closes _ _ _ _ _ _ _ _ _ H1)
    as [[reqs1 Hc1] [opened1 Hp1]].
  pose proof (connect_to_db_never_closes _ _ _ _ _ _ _ _ _ H2)
    as [[reqs2 Hc2] [opened2 Hp2]].
  apply connect_to_db_return_state in H1 as (Hlen & _ & Ha1 & _).
  apply connect_to_db_return_state in H2 as (_ & _ & Ha2 & _).
  split; [exact Ha1|]. split; [exact Ha2|].
  split; [rewrite Hlen, length_app; simpl; lia|].
  split.
  - intros h [Hlo Hhi]. rewrite Hp2.
    rewrite lookup_app_l by exact Hhi.
    rewrite Hp1 in Hhi |- *. rewrite lookup_app_r by exact Hlo.
    rewrite length_app, length_map in Hhi.
    destruct (opened1 !! (h - length (pools w))) as [req|] eqn:E.
    + by rewrite lookup_map, E.
    + apply lookup_ge_None in E. lia.
  - exists (reqs1 ++ reqs2). by rewrite Hc2, Hc1, map_app, app_assoc.
Qed.

(** X13: [close_db_connection] after a [connect_to_db] that returned: the
    call returns and closes the primary pool; every secondary pool is
    still open, and [app.state] is as [connect_to_db] left it, so
    [app.state.pool] names a closed pool. *)
Theorem connect_then_close
    (settings : option PostgresSettings)
    (multi : option MultiPostgresSettings)
    (schemas_arg files_arg : option (list string))
    (kwargs : gmap string pyval) (w w1 : world) :
  connect_to_db network settings multi schemas_arg files_arg kwargs w
  = (Return tt, w1) ->
  let s := effective_settings settings w in
  let req := request_for s (length (factories w)) kwargs in
  exists w2,
    close_db_connection w1 = (Return tt, w2)
    /\ app_state w2 = app_state w1
    /\ pools w2
       = pools w ++ closed_pool (open_pool (req (database_url s)))
                    :: map (fun u => open_pool (req u)) (secondary_urls multi)
    /\ calls w2 = calls w1 ++ [ClosePool (length (pools w))]
    /\ (forall i u,
          secondary_urls multi !! i = Some u ->
          pool_closed <$> pools w2 !! (S (length (pools w)) + i)
          = Some false).
Proof.
  intros H s req.
  apply connect_to_db_return_state in H as (Hp & _ & Ha & _).
  fold s in Hp. fold req in Hp.
  unfold close_db_connection, bind, get_attr. rewrite Ha.
  eexists. split; [reflexivity|]. cbn [app_state pools calls].
  assert (Halter : alter (fun p => {| pool_args := pool_args p;
                                       pool_closed := true |})
                     (length (pools w)) (pools w1)
                   = pools w ++ closed_pool (open_pool (req (database_url s)))
                       :: map (fun u => open_pool (req u))
                              (secondary_urls multi)).
  { rewrite Hp.
    rewrite <- (Nat.add_0_r (length (pools w))) at 1.
    by rewrite alter_app_r. }
  rewrite Halter.
  split; [reflexivity|]. split; [reflexivity|]. split; [reflexivity|].
  intros i u Hu. rewrite lookup_app_r by lia.
  replace (S (length (pools w)) + i - length (pools w)) with (S i) by lia.
  rewrite lookup_cons_ne_0 by lia. simpl pred.
  by rewrite lookup_map, Hu.
Qed.

(** X14: [close_db_connection] does not clear [app.state.pool]: called again
    it returns again, asks the same pool to close a second time, and
    changes neither the pools nor [app.state]. *)
Theorem close_db_connection_twice (w w1 : world) :
  close_db_connection w = (Return tt, w1) ->
  exists h w2,
    app_state w !! "pool" = Some (VPool h)
    /\ close_db_connection w1 = (Return tt, w2)
    /\ pools w2 = pools w1
    /\ app_state w2 = app_state w
    /\ calls w2 = calls w ++ [ClosePool h; ClosePool h].
Proof.
  unfold close_db_connection, bind, get_attr.
  destruct (app_state w !! "pool") as [[h|hs|tag]|] eqn:E;
    simpl; try discriminate.
  intros [= <-]. simpl. rewrite E. exists h. eexists.
  split; [reflexivity|]. split; [reflexivity|]. simpl.
  split; [|split; [reflexivity | by rewrite <- app_assoc]].
  rewrite list_alter_alter_eq. by apply list_alter_ext.
Qed.

End PoolRuns.

Lemma initialize_returns_witness :
  let st := demo_state ["public"] ["funcs.sql"] "public" in
  exists st',
    initialize pg_server st = (Return tt, st')
    /\ length (conn_trace st') = 5.
Proof.
  intros st.
  destruct (initialize_returns pg_server st)
    as (st' & Hrun & _ & Hlen & _).
  - intros path [<-|[<-|[]]]; vm_compute; eauto.
  - intros op s Hin. vm_compute in Hin.
    destruct Hin as [[= <-]|[[= <-]|[[=]|[[= <-]|[[= <-]|[[= <-]|[]]]]]]];
      reflexivity.
  - exists st'. split; [exact Hrun | exact Hlen].
Defined.

Lemma initialize_missing_user_file_witness :
  let st := demo_state [] ["funcs.sql"; "nowhere.sql"; "broken.sql"]
                       "public" in
  exists st',
    initialize pg_server st = (Raise (FileNotFoundError "nowhere.sql"), st')
    /\ conn_trace st'
       = [json_codec; jsonb_codec; search_path_op (self st);
          Execute "CREATE FUNCTION pg_temp.squares() ..."].
Proof.
  intros st.
  destruct (initialize_missing_user_file pg_server st
              ["funcs.sql"] "nowhere.sql" ["broken.sql"]
              ["CREATE FUNCTION pg_temp.squares() ..."])
    as (st' & Hrun & Htrace).
  - reflexivity.
  - repeat constructor.
  - vm_compute. reflexivity.
  - intros op s Hin. vm_compute in Hin.
    destruct Hin as [<-|[<-|[<-|[<-|[]]]]]; reflexivity.
  - exists st'. split; [exact Hrun | exact Htrace].
Defined.

Lemma initialize_missing_catalog_witness :
  let st :=
    {| self := __init__ None (Some ["funcs.sql"]);
       conn_session := pg_fresh "public";
       conn_trace := [];
       files := delete DB_CATALOG_FILE demo_files;
       log := [] |} in
  exists st',
    initialize pg_server st
    = (Raise (FileNotFoundError DB_CATALOG_FILE), st')
    /\ conn_trace st'
       = [json_codec; jsonb_codec; search_path_op (self st);
          Execute "CREATE FUNCTION pg_temp.squares() ..."].
Proof.
  intros st.
  destruct (initialize_missing_catalog pg_server st
              ["CREATE FUNCTION pg_temp.squares() ..."])
    as (st' & Hrun & Htrace).
  - repeat constructor.
  - vm_compute. reflexivity.
  - intros op s Hin. vm_compute in Hin.
    destruct Hin as [<-|[<-|[<-|[<-|[]]]]]; reflexivity.
  - exists st'. split; [exact Hrun | exact Htrace].
Defined.

Lemma search_path_statement_injective_witness :
  schemas (mk_connection_factory ["public"; "app"] ["funcs.sql"])
  = schemas (mk_connection_factory ["public"; "app"] []).
Proof.
  apply search_path_statement_injective.
  - repeat constructor.
  - repeat constructor.
  - reflexivity.
Defined.

Lemma search_path_literal_intact_witness :
  strip_prefix search_path_sql_head
    (search_path_sql (join "," ("pg_temp" :: ["a,b"; "My Schema"])))
  ≫= scan_literal
  = Some ("pg_temp,a,b,My Schema,", search_path_sql_rest).
Proof.
  apply (search_path_literal_intact
           (mk_connection_factory ["a,b"; "My Schema"] [])).
  repeat constructor.
Defined.

Lemma initialize_search_path_text_witness :
  let st := demo_state ["a,b"] ["funcs.sql"] "public" in
  let st' := snd (initialize pg_server st) in
  exists st_codecs st_mid,
    register_codecs pg_server st = (Return tt, st_codecs)
    /\ set_search_path pg_server st_codecs = (Return tt, st_mid)
    /\ pg_search_path (conn_session st_mid) = "pg_temp,a,b,public".
Proof.
  intros st st'.
  destruct (initialize_search_path_text pg_server pg_setting
              pg_server_set_config st st')
    as (st_codecs & st_mid & Hcodecs & Hpath & _ & _ & Htext).
  - repeat constructor.
  - vm_compute. reflexivity.
  - exists st_codecs, st_mid. split; [exact Hcodecs|]. split; [exact Hpath|].
    change (pg_search_path (conn_session st_mid))
      with (pg_setting (conn_session st_mid) "search_path").
    rewrite Htext.
    assert (Hc : st_codecs = snd (register_codecs pg_server st))
      by (by rewrite Hcodecs).
    rewrite Hc. vm_compute. reflexivity.
Defined.

Lemma initialize_twice_prefixes_twice_witness :
  let st := demo_state ["app"] [] "public" in
  let st1 := snd (initialize pg_server st) in
  let st2 := snd (initialize pg_server st1) in
  pg_search_path (conn_session st1) = "pg_temp,app,public"
  /\ pg_search_path (conn_session st2) = "pg_temp,app,pg_temp,app,public".
Proof.
  intros st st1 st2.
  destruct (initialize_twice_prefixes_twice pg_server pg_setting
              pg_server_set_config st st1 st2)
    as (Hone & Htwice & _).
  - repeat constructor.
  - exact pg_server_codec_keeps_path.
  - intros path text s s' Hin Htext.
    destruct Hin as [<-|[]]; vm_compute in Htext;
      injection Htext as <-; vm_compute; by intros [= <-].
  - vm_compute. reflexivity.
  - vm_compute. reflexivity.
  - split; [exact Hone | exact Htwice].
Defined.

Lemma connect_to_db_repeated_keyword_witness :
  exists k' w',
    connect_to_db demo_network None None None None
      (<["init" := VOther 0]> ∅) demo_world = (Raise (TypeError k'), w')
    /\ calls w' = [] /\ pools w' = [] /\ app_state w' = ∅.
Proof.
  destruct (connect_to_db_repeated_keyword demo_network None None None None
              (<["init" := VOther 0]> ∅) demo_world "init")
    as (k' & w' & Hrun & _ & _ & Hc & Hp & Ha).
  - vm_compute. tauto.
  - rewrite lookup_insert_eq. eauto.
  - exists k', w'. by repeat split.
Defined.

Lemma connect_to_db_primary_failure_witness :
  let settings :=
    {| database_url := "postgresql://down/db";
       db_min_conn_size := 1; db_max_conn_size := 10;
       db_max_queries := 50000; db_max_inactive_conn_lifetime := 300 |} in
  exists w',
    connect_to_db demo_network (Some settings)
      (Some {| database_url_list := ["postgresql://s1/db"] |})
      None None ∅ demo_world = (Raise unreachable, w')
    /\ pools w' = [] /\ app_state w' = ∅ /\ length (calls w') = 1.
Proof.
  intros settings.
  destruct (connect_to_db_primary_failure demo_network (Some settings)
              (Some {| database_url_list := ["postgresql://s1/db"] |})
              None None ∅ demo_world unreachable)
    as (w' & Hrun & Hc & Hp & Ha).
  - vm_compute. reflexivity.
  - reflexivity.
  - exists w'. split; [exact Hrun|]. split; [exact Hp|].
    split; [exact Ha|]. by rewrite Hc.
Defined.

Lemma connect_to_db_returns_witness :
  exists w',
    connect_to_db demo_network None
      (Some {| database_url_list :=
                 ["postgresql://s1/db"; "postgresql://s2/db"] |})
      None None ∅ demo_world = (Return tt, w')
    /\ app_state w' !! "pool" = Some (VPool 0)
    /\ length (pools w') = 3.
Proof.
  destruct (connect_to_db_returns demo_network None
              (Some {| database_url_list :=
                         ["postgresql://s1/db"; "postgresql://s2/db"] |})
              None None ∅ demo_world)
    as (w' & Hrun & Ha & Hp).
  - vm_compute. reflexivity.
  - intros history u [<-|[<-|[<-|[]]]]; reflexivity.
  - exists w'. split; [exact Hrun|]. split; [exact Ha|]. by rewrite Hp.
Defined.

Lemma connect_to_db_twice_leaks_witness :
  let w1 := snd (connect_to_db demo_network None None None None ∅
                   demo_world) in
  let w2 := snd (connect_to_db demo_network None None None None ∅ w1) in
  app_state w1 !! "pool" = Some (VPool 0)
  /\ app_state w2 !! "pool" = Some (VPool 1)
  /\ pool_closed <$> pools w2 !! 0 = Some false.
Proof.
  intros w1 w2.
  destruct (connect_to_db_twice_leaks demo_network None None None None
              None None None None ∅ ∅ demo_world w1 w2)
    as (H1 & H2 & _ & Hopen & _).
  - vm_compute. reflexivity.
  - vm_compute. reflexivity.
  - split; [exact H1|]. split; [exact H2|].
    apply Hopen. vm_compute. lia.
Defined.

Lemma connect_then_close_witness :
  let w1 :=
    snd (connect_to_db demo_network None
           (Some {| database_url_list :=
                      ["postgresql://s1/db"; "postgresql://s2/db"] |})
           None None ∅ demo_world) in
  exists w2,
    close_db_connection w1 = (Return tt, w2)
    /\ map pool_closed (pools w2) = [true; false; false]
    /\ app_state w2 !! "pool" = Some (VPool 0).
Proof.
  intros w1.
  destruct (connect_then_close demo_network None
              (Some {| database_url_list :=
                         ["postgresql://s1/db"; "postgresql://s2/db"] |})
              None None ∅ demo_world w1)
    as (w2 & Hrun & Ha & Hp & _).
  - vm_compute. reflexivity.
  - exists w2. split; [exact Hrun|]. rewrite Hp, Ha.
    split; vm_compute; reflexivity.
Defined.

Lemma close_db_connection_twice_witness :
  let w :=
    snd (connect_to_db demo_network None None None None ∅ demo_world) in
  let w1 := snd (close_db_connection w) in
  exists w2,
    close_db_connection w1 = (Return tt, w2)
    /\ pools w2 = pools w1
    /\ length (calls w2) = 3.
Proof.
  intros w w1.
  destruct (close_db_connection_twice w w1)
    as (h & w2 & _ & Hrun & Hp & _ & Hc).
  - vm_compute. reflexivity.
  - exists w2. split; [exact Hrun|]. split; [exact Hp|].
    rewrite Hc, length_app. vm_compute. reflexivity.
Defined.
